(** * Platform-event relay: server broadcast loop and React event list

    A shallow embedding of [server/index.js] (Express + jsforce relay that
    fans CometD messages out to Server-Sent-Events responses) and of the
    frame handler of [client/src/App.jsx], followed by the properties the
    specification states about them. *)

From Stdlib Require Import ZArith Ascii String DecimalString.
From stdpp Require Import base list gmap strings.

Set Warnings "-register-all".


(** ** JSON values

    What the upstream client hands to the subscription callback and what
    [JSON.parse] returns in the browser.  An object lists its own properties
    in the order the engine enumerates them; a number is an integer that a
    double holds exactly (below 2^53 in magnitude), which JavaScript prints
    in plain decimal.  Fractions are outside the model. *)

Inductive Json : Type :=
| JNull
| JBool (b : bool)
| JNum (z : Z)
| JStr (s : string)
| JArr (xs : list Json)
| JObj (kvs : list (string * Json)).

Module Js.

(** Separator-joined concatenation, as [Array.prototype.join]. *)
Fixpoint join (sep : string) (parts : list string) : string :=
  match parts with
  | [] => EmptyString
  | [p] => p
  | p :: rest => p +:+ sep +:+ join sep rest
  end.

Definition hex_digit (n : N) : ascii :=
  if (n <? 10)%N then ascii_of_N (48 + n) else ascii_of_N (87 + n).

(** One code unit of a quoted JSON string (ECMA-262 QuoteJSONString):
    the two-character escapes, [\u00xx] for the other control characters,
    the character itself otherwise. *)
Definition escape_char (c : ascii) : string :=
  let n := N_of_ascii c in
  if (n =? 8)%N then "\b"
  else if (n =? 9)%N then "\t"
  else if (n =? 10)%N then "\n"
  else if (n =? 12)%N then "\f"
  else if (n =? 13)%N then "\r"
  else if (n =? 34)%N then String "\" (String c EmptyString)
  else if (n =? 92)%N then "\\"
  else if (n <? 32)%N then
    "\u00" +:+
    String (hex_digit (n / 16)) (String (hex_digit (n mod 16)) EmptyString)
  else String c EmptyString.

Fixpoint escape (s : string) : string :=
  match s with
  | EmptyString => EmptyString
  | String c rest => escape_char c +:+ escape rest
  end.

Definition dquote : string := String (ascii_of_N 34) EmptyString.

Definition quote (s : string) : string := dquote +:+ escape s +:+ dquote.

Definition number_toString (z : Z) : string :=
  NilZero.string_of_int (Z.to_int z).

End Js.

(** [JSON.stringify(value)] with no replacer and no indentation. *)
Fixpoint JSON_stringify (j : Json) : string :=
  match j with
  | JNull => "null"
  | JBool true => "true"
  | JBool false => "false"
  | JNum z => Js.number_toString z
  | JStr s => Js.quote s
  | JArr xs => "[" +:+ Js.join "," (map JSON_stringify xs) +:+ "]"
  | JObj kvs =>
      "{" +:+
      Js.join "," (map (fun kv : string * Json =>
                          let (k, v) := kv in
                          Js.quote k +:+ ":" +:+ JSON_stringify v) kvs)
      +:+ "}"
  end.

(** Structural induction on JSON values that reaches inside arrays and
    objects. *)
Section JsonInduction.
Variable P : Json → Prop.
Hypothesis case_null : P JNull.
Hypothesis case_bool : ∀ b, P (JBool b).
Hypothesis case_num : ∀ z, P (JNum z).
Hypothesis case_str : ∀ s, P (JStr s).
Hypothesis case_arr : ∀ xs, Forall P xs → P (JArr xs).
Hypothesis case_obj : ∀ kvs, Forall (λ kv, P kv.2) kvs → P (JObj kvs).

Fixpoint Json_nested_ind (j : Json) : P j :=
  match j with
  | JNull => case_null
  | JBool b => case_bool b
  | JNum z => case_num z
  | JStr s => case_str s
  | JArr xs =>
      case_arr xs
        ((fix all (l : list Json) : Forall P l :=
            match l with
            | [] => @List.Forall_nil _ P
            | x :: l' => @List.Forall_cons _ P x l' (Json_nested_ind x) (all l')
            end) xs)
  | JObj kvs =>
      case_obj kvs
        ((fix all (l : list (string * Json)) : Forall (λ kv, P kv.2) l :=
            match l with
            | [] => @List.Forall_nil _ (λ kv, P kv.2)
            | (k, v) :: l' =>
                @List.Forall_cons _ (λ kv, P kv.2) (k, v) l' (Json_nested_ind v) (all l')
            end) kvs)
  end.
End JsonInduction.

(** Every character is at or above the space: no line feed, no carriage
    return, no other control character. *)
Fixpoint all_printable (s : string) : bool :=
  match s with
  | EmptyString => true
  | String a rest => (32 <=? N_of_ascii a)%N && all_printable rest
  end.

(** The line feed that ends every line of a frame. *)
Definition nl : string := String (ascii_of_N 10) EmptyString.


(** ** Reading JSON text

    A reader for the JSON texts whose numbers are integers and whose
    [\u] escapes stay below 128, the texts the values above serialise to.
    It is used to run the client on concrete frames; the client itself is
    stated for any [JSON.parse]. *)

Module JsonText.

Definition is_ws (c : ascii) : bool :=
  let n := N_of_ascii c in
  (n =? 32)%N || (n =? 9)%N || (n =? 10)%N || (n =? 13)%N.

Fixpoint skip_ws (s : string) : string :=
  match s with
  | String c r => if is_ws c then skip_ws r else s
  | EmptyString => s
  end.

Definition digit_of (c : ascii) : option Z :=
  let n := N_of_ascii c in
  if (48 <=? n)%N && (n <=? 57)%N then Some (Z.of_N (n - 48)) else None.

(** The longest run of digits at the head of [s], read after [acc]. *)
Fixpoint digits (acc : Z) (s : string) : Z * string :=
  match s with
  | String c r =>
      match digit_of c with
      | Some d => digits (10 * acc + d)%Z r
      | None => (acc, s)
      end
  | EmptyString => (acc, s)
  end.

(** What may not follow an integer literal: a further digit after a leading
    zero, a fraction or an exponent. *)
Definition continues_number (s : string) : bool :=
  match s with
  | String c _ =>
      let n := N_of_ascii c in
      ((48 <=? n)%N && (n <=? 57)%N) || (n =? 46)%N || (n =? 101)%N || (n =? 69)%N
  | EmptyString => false
  end.

Definition unsigned (s : string) : option (Z * string) :=
  match s with
  | String c r =>
      match digit_of c with
      | Some d =>
          let (n, rest) := if (d =? 0)%Z then (0%Z, r) else digits d r in
          if continues_number rest then None else Some (n, rest)
      | None => None
      end
  | EmptyString => None
  end.

Definition number (s : string) : option (Z * string) :=
  match s with
  | String "-" r =>
      match unsigned r with
      | Some (n, rest) => Some ((- n)%Z, rest)
      | None => None
      end
  | _ => unsigned s
  end.

Definition hex_of (c : ascii) : option N :=
  let n := N_of_ascii c in
  if (48 <=? n)%N && (n <=? 57)%N then Some (n - 48)%N
  else if (97 <=? n)%N && (n <=? 102)%N then Some (n - 87)%N
  else if (65 <=? n)%N && (n <=? 70)%N then Some (n - 55)%N
  else None.

Definition hex4 (a b c d : ascii) : option N :=
  match hex_of a, hex_of b, hex_of c, hex_of d with
  | Some x, Some y, Some z, Some w => Some (((x * 16 + y) * 16 + z) * 16 + w)%N
  | _, _, _, _ => None
  end.

(** The character a two-character escape stands for. *)
Definition unescape (e : ascii) : option ascii :=
  let n := N_of_ascii e in
  if (n =? 34)%N then Some e
  else if (n =? 92)%N then Some e
  else if (n =? 47)%N then Some e
  else if (n =? 98)%N then Some (ascii_of_N 8)
  else if (n =? 102)%N then Some (ascii_of_N 12)
  else if (n =? 110)%N then Some (ascii_of_N 10)
  else if (n =? 114)%N then Some (ascii_of_N 13)
  else if (n =? 116)%N then Some (ascii_of_N 9)
  else None.

Definition push (c : ascii) (r : option (string * string)) : option (string * string) :=
  match r with
  | Some (str, rest) => Some (String c str, rest)
  | None => None
  end.

(** The characters of a string literal after its opening quote, and what
    follows its closing quote. *)
Fixpoint chars (s : string) : option (string * string) :=
  match s with
  | EmptyString => None
  | String c r =>
      let n := N_of_ascii c in
      if (n =? 34)%N then Some (EmptyString, r)
      else if (n =? 92)%N then
        match r with
        | String e r1 =>
            match unescape e with
            | Some ch => push ch (chars r1)
            | None =>
                match e, r1 with
                | "u"%char, String h1 (String h2 (String h3 (String h4 r2))) =>
                    match hex4 h1 h2 h3 h4 with
                    | Some code =>
                        if (code <? 128)%N then push (ascii_of_N code) (chars r2)
                        else None
                    | None => None
                    end
                | _, _ => None
                end
            end
        | EmptyString => None
        end
      else if (n <? 32)%N then None
      else push c (chars r)
  end.

(** [o[k] = v] on an object under construction: a key met again keeps its
    place and takes the new value. *)
Fixpoint set_property (k : string) (v : Json) (kvs : list (string * Json))
  : list (string * Json) :=
  match kvs with
  | [] => [(k, v)]
  | (k', v') :: rest =>
      if String.eqb k k' then (k', v) :: rest
      else (k', v') :: set_property k v rest
  end.

Definition is_quote (c : ascii) : bool := (N_of_ascii c =? 34)%N.

Fixpoint value (fuel : nat) (s : string) : option (Json * string) :=
  match fuel with
  | 0 => None
  | S f =>
      match skip_ws s with
      | String "n" (String "u" (String "l" (String "l" r))) => Some (JNull, r)
      | String "t" (String "r" (String "u" (String "e" r))) => Some (JBool true, r)
      | String "f" (String "a" (String "l" (String "s" (String "e" r)))) =>
          Some (JBool false, r)
      | String "[" r =>
          match skip_ws r with
          | String "]" r' => Some (JArr [], r')
          | _ =>
              match elements f r with
              | Some (xs, r') => Some (JArr xs, r')
              | None => None
              end
          end
      | String "{" r =>
          match skip_ws r with
          | String "}" r' => Some (JObj [], r')
          | _ =>
              match members f [] r with
              | Some (kvs, r') => Some (JObj kvs, r')
              | None => None
              end
          end
      | String c r as s' =>
          if is_quote c then
            match chars r with
            | Some (str, r') => Some (JStr str, r')
            | None => None
            end
          else
            match number s' with
            | Some (z, r') => Some (JNum z, r')
            | None => None
            end
      | EmptyString => None
      end
  end
with elements (fuel : nat) (s : string) : option (list Json * string) :=
  match fuel with
  | 0 => None
  | S f =>
      match value f s with
      | Some (x, r) =>
          match skip_ws r with
          | String "," r' =>
              match elements f r' with
              | Some (xs, r'') => Some (x :: xs, r'')
              | None => None
              end
          | String "]" r' => Some ([x], r')
          | _ => None
          end
      | None => None
      end
  end
with members (fuel : nat) (acc : list (string * Json)) (s : string)
  : option (list (string * Json) * string) :=
  match fuel with
  | 0 => None
  | S f =>
      match skip_ws s with
      | String c r =>
          if is_quote c then
            match chars r with
            | Some (k, r1) =>
                match skip_ws r1 with
                | String ":" r2 =>
                    match value f r2 with
                    | Some (v, r3) =>
                        match skip_ws r3 with
                        | String "," r4 => members f (set_property k v acc) r4
                        | String "}" r4 => Some (set_property k v acc, r4)
                        | _ => None
                        end
                    | None => None
                    end
                | _ => None
                end
            | None => None
            end
          else None
      | EmptyString => None
      end
  end.

(** A whole text: one value, then nothing but white space. *)
Definition parse (s : string) : option Json :=
  match value (2 * String.length s + 2) s with
  | Some (j, r) =>
      match skip_ws r with
      | EmptyString => Some j
      | _ => None
      end
  | None => None
  end.

End JsonText.

(** ** The relay server ([server/index.js]) *)

(** The environment variables read through [process.env]; an unset variable
    is [None]. *)
Record Env : Type := mkEnv {
  SF_LOGIN_URL : option string;
  SF_USERNAME : option string;
  SF_PASSWORD : option string;
  SF_TOKEN : option string;
  SF_PLATFORM_EVENT_API_NAME : option string;
  PORT : option string;
  CORS_ORIGIN : option string
}.

(** JavaScript truthiness of an environment value: [undefined] and the empty
    string are falsy. *)
Definition truthy (v : option string) : bool :=
  match v with
  | Some (String _ _) => true
  | _ => false
  end.

(** How the [try] block of [start] ends, which the code does not decide:
    it runs to its end, or [await conn.login(...)] rejects, or a later
    statement of the block (creating the streaming client, subscribing,
    [app.listen]) throws. *)
Inductive StartOutcome : Type :=
| Started
| LoginRejected (err : Json)
| SetupThrew (err : Json).

Inductive Level : Type := Info | Error.

Inductive LogArg : Type :=
| LText (s : string)
| LValue (j : Json).

Definition LogLine : Type := Level * list LogArg.

(** A response object of the [/events] route.  [written] lists the chunks
    handed to [res.write], oldest first; [flushed] counts how many of them
    the socket has taken so far, so the rest is the outbound backlog. *)
Record Response : Type := mkResponse {
  headers : list (string * string);
  headersFlushed : bool;
  written : list string;
  flushed : nat
}.

Definition outboundQueue (r : Response) : list string :=
  drop (flushed r) (written r).

(** Response objects are told apart by identity; an identity is the rank of
    the request that created it. *)
Definition ResId : Type := nat.

(** The streaming subscription as [start] creates it: the channel, and the
    replay id the [StreamingExtension.Replay] object is constructed with
    ([const replayId = -1]).  What that object and the faye client do with it
    afterwards (the cursor the extension keeps, reconnection) is state of the
    libraries and is not modelled. *)
Record Subscription : Type := mkSubscription {
  channel : string;
  replayId : Z
}.

Record Server : Type := mkServer {
  exited : option Z;                 (* [process.exit(code)] was called *)
  listening : bool;                  (* [app.listen] was called *)
  upstream : option Subscription;    (* the faye client and its subscription *)
  sseClients : list ResId;           (* the [Set], in insertion order *)
  intervals : gmap ResId Z;          (* live [setInterval] handles and their period in ms *)
  responses : gmap ResId Response;   (* the response objects created so far *)
  nextRes : ResId;
  console : list LogLine             (* what the [console.log] and [console.error] calls of this module printed *)
}.

Definition initial : Server :=
  mkServer None false None [] ∅ ∅ 0 [].

Section Setters.
Implicit Types s : Server.

Definition with_exited (c : Z) s : Server :=
  mkServer (Some c) (listening s) (upstream s) (sseClients s) (intervals s)
           (responses s) (nextRes s) (console s).

Definition with_listening s : Server :=
  mkServer (exited s) true (upstream s) (sseClients s) (intervals s)
           (responses s) (nextRes s) (console s).

Definition with_upstream (u : Subscription) s : Server :=
  mkServer (exited s) (listening s) (Some u) (sseClients s) (intervals s)
           (responses s) (nextRes s) (console s).

Definition with_sseClients (l : list ResId) s : Server :=
  mkServer (exited s) (listening s) (upstream s) l (intervals s)
           (responses s) (nextRes s) (console s).

Definition with_intervals (t : gmap ResId Z) s : Server :=
  mkServer (exited s) (listening s) (upstream s) (sseClients s) t
           (responses s) (nextRes s) (console s).

Definition with_responses (h : gmap ResId Response) s : Server :=
  mkServer (exited s) (listening s) (upstream s) (sseClients s) (intervals s)
           h (nextRes s) (console s).

Definition with_nextRes (n : ResId) s : Server :=
  mkServer (exited s) (listening s) (upstream s) (sseClients s) (intervals s)
           (responses s) n (console s).

(** [console.log] / [console.error]: one more line at the end. *)
Definition log (lv : Level) (args : list LogArg) s : Server :=
  mkServer (exited s) (listening s) (upstream s) (sseClients s) (intervals s)
           (responses s) (nextRes s) (console s ++ [(lv, args)]).
End Setters.

(** [Set.prototype.add] and [Set.prototype.delete] on the insertion-ordered
    set: adding a member again keeps its place, deleting an absent value
    changes nothing. *)
Definition set_add (x : ResId) (l : list ResId) : list ResId :=
  if decide (x ∈ l) then l else l ++ [x].

Definition set_delete (x : ResId) (l : list ResId) : list ResId :=
  filter (λ y, y ≠ x) l.

(** [res.write(chunk)]: the chunk joins the end of that response's output.
    The boolean it returns is not looked at by any caller. *)
Definition write_chunk (chunk : string) (r : Response) : Response :=
  mkResponse (headers r) (headersFlushed r) (written r ++ [chunk]) (flushed r).

Definition res_write (res : ResId) (chunk : string) (s : Server) : Server :=
  with_responses (alter (write_chunk chunk) res (responses s)) s.

Definition PING_INTERVAL_MS : Z := 25000%Z.

Definition ping_frame : string := ":ping" +:+ nl +:+ nl.

Definition sse_headers : list (string * string) :=
  [("Content-Type", "text/event-stream");
   ("Cache-Control", "no-cache");
   ("Connection", "keep-alive");
   ("X-Accel-Buffering", "no")].

(** [app.get("/events", ...)]: a new response object gets the SSE headers,
    joins [sseClients] and gets its keep-alive interval. *)
Definition get_events (s : Server) : Server :=
  let res := nextRes s in
  let r := mkResponse sse_headers true [] 0 in
  with_intervals (<[res := PING_INTERVAL_MS]> (intervals s))
    (with_sseClients (set_add res (sseClients s))
       (with_responses (<[res := r]> (responses s))
          (with_nextRes (S res) s))).

(** The interval callback of response [res]; a cleared interval never runs. *)
Definition ping (res : ResId) (s : Server) : Server :=
  match intervals s !! res with
  | Some _ => res_write res ping_frame s
  | None => s
  end.

(** [req.on("close", ...)]. *)
Definition on_close (res : ResId) (s : Server) : Server :=
  with_sseClients (set_delete res (sseClients s))
    (with_intervals (delete res (intervals s)) s).

(** [app.get("/health", ...)] answers with this body and touches nothing. *)
Definition health : Json := JObj [("ok", JBool true)].

Definition event_line : string := "event: platformEvent" +:+ nl.

Definition data_line (data : string) : string := "data: " +:+ data +:+ nl +:+ nl.

(** Body of the loop of [broadcastEvent] for one member of the set. *)
Definition write_event (data : string) (s : Server) (res : ResId) : Server :=
  res_write res (data_line data) (res_write res event_line s).

(** Both writes of one pass of the loop, on the response object itself. *)
Definition write_frame (data : string) (r : Response) : Response :=
  write_chunk (data_line data) (write_chunk event_line r).

Definition broadcastEvent (evt : Json) (s : Server) : Server :=
  let data := JSON_stringify evt in
  foldl (write_event data) s (sseClients s).

(** The callback given to [fayeClient.subscribe]. *)
Definition on_data (data : Json) (s : Server) : Server :=
  broadcastEvent data (log Info [LText "topic received data"; LValue data] s).

(** The two continuations of [subscription.then]. *)
Definition on_subscribed (s : Server) : Server :=
  match upstream s with
  | Some u => log Info [LText "Successfully subscribed to channel:"; LText (channel u)] s
  | None => s
  end.

Definition on_subscribe_error (err : Json) (s : Server) : Server :=
  match upstream s with
  | Some u =>
      log Error [LText "Error subscribing to channel:"; LText (channel u); LValue err] s
  | None => s
  end.

(** [fayeClient.on('transport:failure', ...)]. *)
Definition on_transport_failure (err : Json) (s : Server) : Server :=
  log Error [LText "CometD transport failure:"; LValue err] s.

Definition env_or (d : string) (v : option string) : string :=
  match v with
  | Some x => x
  | None => d
  end.

(** [async function start()], with the outcome of its [try] block given. *)
Definition start (env : Env) (outcome : StartOutcome) (s : Server) : Server :=
  let s := log Info [LText "Logging into Salesforce..."] s in
  match outcome with
  | LoginRejected e =>
      with_exited 1%Z (log Error [LText "Startup failed:"; LValue e] s)
  | _ =>
      let s := log Info [LText "Logged in as";
                         LText (env_or EmptyString (SF_USERNAME env))] s in
      let channel :=
        "/event/" +:+ env_or "Session_Event__e" (SF_PLATFORM_EVENT_API_NAME env) in
      let s := log Info [LText "Subscribing to"; LText channel] s in
      match outcome with
      | SetupThrew e =>
          with_exited 1%Z (log Error [LText "Startup failed:"; LValue e] s)
      | _ =>
          let replayId := (-1)%Z in
          let s := with_upstream (mkSubscription channel replayId) s in
          let s := with_listening s in
          log Info [LText ("Server listening on http://localhost:" +:+
                           env_or "4000" (PORT env))] s
      end
  end.

Definition creds_missing (env : Env) : bool :=
  negb (truthy (SF_USERNAME env)) || negb (truthy (SF_PASSWORD env))
  || negb (truthy (SF_TOKEN env)).

(** The module body from its first statement to the call of [start].  [env]
    is [process.env] once [dotenv.config()] has loaded the [.env] file; what
    that library prints on its own is not recorded in [console]. *)
Definition boot (env : Env) (outcome : StartOutcome) : Server :=
  if creds_missing env then
    with_exited 1%Z
      (log Error
         [LText "Missing Salesforce creds in .env (SF_USERNAME, SF_PASSWORD, SF_TOKEN)"]
         initial)
  else
    start env outcome
      (log Info [LText "SF_LOGIN_URL: ";
                 LText (env_or "https://test.salesforce.com" (SF_LOGIN_URL env))]
         initial).

(** The socket of response [res] takes up to [n] more chunks of the backlog. *)
Definition take_chunks (n : nat) (r : Response) : Response :=
  mkResponse (headers r) (headersFlushed r) (written r)
             (Nat.min (length (written r)) (flushed r + n)).

Definition socket_drain (res : ResId) (n : nat) (s : Server) : Server :=
  with_responses (alter (take_chunks n) res (responses s)) s.

(** What can happen to the process once the module body has run: requests and
    timers on the downstream side, callbacks of the streaming client on the
    upstream side. *)
Inductive Event : Type :=
| GetEvents
| GetHealth
| ReqClose (res : ResId)
| PingFire (res : ResId)
| SocketDrain (res : ResId) (n : nat)
| TopicData (data : Json)
| SubscribeOk
| SubscribeError (err : Json)
| TransportFailure (err : Json).

(** A process that has exited runs nothing; requests are only accepted after
    [app.listen]; the streaming callbacks only exist after [start] created the
    client. *)
Definition handle (ev : Event) (s : Server) : Server :=
  match exited s with
  | Some _ => s
  | None =>
      match ev with
      | GetEvents => if listening s then get_events s else s
      | GetHealth => s
      | ReqClose res => on_close res s
      | PingFire res => ping res s
      | SocketDrain res n => socket_drain res n s
      | TopicData data =>
          match upstream s with Some _ => on_data data s | None => s end
      | SubscribeOk => on_subscribed s
      | SubscribeError err => on_subscribe_error err s
      | TransportFailure err =>
          match upstream s with Some _ => on_transport_failure err s | None => s end
      end
  end.

Definition run (evs : list Event) (s : Server) : Server :=
  foldl (λ st ev, handle ev st) s evs.

(** Everything written so far to response [res]. *)
Definition written_of (s : Server) (res : ResId) : list string :=
  match responses s !! res with
  | Some r => written r
  | None => []
  end.

Definition queue_of (s : Server) (res : ResId) : list string :=
  match responses s !! res with
  | Some r => outboundQueue r
  | None => []
  end.

(** ** The browser client ([client/src/App.jsx]) *)

Module Client.

(** A JavaScript value as the handler sees it: [None] is [undefined]. *)
Definition JsVal : Type := option Json.

Fixpoint own_property (k : string) (kvs : list (string * Json)) : JsVal :=
  match kvs with
  | [] => None
  | (k', v) :: rest => if String.eqb k k' then Some v else own_property k rest
  end.

(** [v?.k]: [undefined] on [null] and [undefined]; none of the keys the
    handler reads exists on a primitive or on an array. *)
Definition get (k : string) (v : JsVal) : JsVal :=
  match v with
  | Some (JObj kvs) => own_property k kvs
  | _ => None
  end.

(** [a ?? b]. *)
Definition coalesce (a b : JsVal) : JsVal :=
  match a with
  | None | Some JNull => b
  | Some _ => a
  end.

(** [a ?? b] when [b] is known to be a value. *)
Definition coalesce_to (a : JsVal) (b : Json) : Json :=
  match a with
  | None | Some JNull => b
  | Some j => j
  end.

Record Meta : Type := mkMeta {
  createdDate : JsVal;
  type : JsVal;
  schema : JsVal
}.

Record Entry : Type := mkEntry {
  id : Json;
  payload : Json;
  meta : Meta;
  raw : Json
}.

(** The object literal built inside the [setEvents] updater; [uuid] is what
    [crypto.randomUUID()] would return. *)
Definition entry_of (message : Json) (uuid : string) : Entry :=
  let m := Some message in
  let payload :=
    coalesce_to (coalesce (get "payload" (get "data" m)) (get "payload" m))
                message in
  let evtMeta := coalesce_to (get "event" (get "data" m)) (JObj []) in
  mkEntry (coalesce_to (get "replayId" (Some evtMeta)) (JStr uuid))
          payload
          (mkMeta (get "createdDate" (Some evtMeta))
                  (get "channel" m)
                  (get "schema" (get "data" m)))
          message.

Definition KEEP : nat := 200.

(** The state kept by the three [useState] hooks, and the browser console. *)
Record App : Type := mkApp {
  connected : bool;
  events : list Entry;
  filter : string;
  errors : list string
}.

Definition init : App := mkApp false [] EmptyString [].

Section Handler.
(** The browser's [JSON.parse]; [None] stands for the [SyntaxError] it
    throws. *)
Variable JSON_parse : string → option Json.

(** The ["platformEvent"] listener. *)
Definition onPlatformEvent (e_data uuid : string) (a : App) : App :=
  match JSON_parse e_data with
  | Some message =>
      mkApp (connected a)
            (take KEEP (entry_of message uuid :: events a))
            (filter a) (errors a)
  | None =>
      mkApp (connected a) (events a) (filter a)
            (errors a ++ ["Bad event payload"])
  end.

Inductive Action : Type :=
| Open
| Failed
| PlatformEvent (e_data uuid : string)
| ClearClick
| FilterChange (v : string).

Definition dispatch (act : Action) (a : App) : App :=
  match act with
  | Open => mkApp true (events a) (filter a) (errors a)
  | Failed => mkApp false (events a) (filter a) (errors a)
  | PlatformEvent d u => onPlatformEvent d u a
  | ClearClick => mkApp (connected a) [] (filter a) (errors a)
  | FilterChange v => mkApp (connected a) (events a) v (errors a)
  end.

Definition play (acts : list Action) (a : App) : App :=
  foldl (λ st act, dispatch act st) a acts.

(** Every entry received since the list was last cleared, newest first
    and with no bound: what the list would show if nothing were cut. *)
Definition record_action (h : list Entry) (act : Action) : list Entry :=
  match act with
  | PlatformEvent d u =>
      match JSON_parse d with
      | Some message => entry_of message u :: h
      | None => h
      end
  | ClearClick => []
  | _ => h
  end.

Definition history (acts : list Action) : list Entry :=
  foldl record_action [] acts.
End Handler.

End Client.

(** ** The browser's reading of the stream

    [new EventSource(url)] reads the response body by the rules of the HTML
    standard for server-sent events: lines end at LF, CR or CRLF; a line that
    starts with a colon is a comment; [event] sets the type of the pending
    event, [data] adds a line to its data; an empty line dispatches the
    pending event if it has data.  Fields that do not reach a listener
    (the last event id and the reconnection time) are left out. *)

Module EventSource.

Record Reader : Type := mkReader {
  line : string;                       (* the line being read *)
  after_cr : bool;                     (* the last character was a CR *)
  event_type : string;                 (* the event type buffer *)
  data : string;                       (* the data buffer *)
  dispatched : list (string * string)  (* type and data of the events so far *)
}.

Definition ready (out : list (string * string)) : Reader :=
  mkReader EmptyString false EmptyString EmptyString out.

Definition is_empty (s : string) : bool :=
  match s with
  | EmptyString => true
  | String _ _ => false
  end.

(** The field name before the first colon and what follows that colon. *)
Fixpoint split_colon (l : string) : option (string * string) :=
  match l with
  | EmptyString => None
  | String c r =>
      if (N_of_ascii c =? 58)%N then Some (EmptyString, r)
      else match split_colon r with
           | Some (f, v) => Some (String c f, v)
           | None => None
           end
  end.

Definition strip_space (v : string) : string :=
  match v with
  | String c r => if (N_of_ascii c =? 32)%N then r else v
  | EmptyString => v
  end.

Fixpoint drop_last_lf (s : string) : string :=
  match s with
  | EmptyString => EmptyString
  | String c EmptyString => if (N_of_ascii c =? 10)%N then EmptyString else s
  | String c r => String c (drop_last_lf r)
  end.

Definition process_field (f v : string) (rd : Reader) : Reader :=
  if String.eqb f "event" then
    mkReader (line rd) (after_cr rd) v (data rd) (dispatched rd)
  else if String.eqb f "data" then
    mkReader (line rd) (after_cr rd) (event_type rd) (data rd +:+ v +:+ nl)
             (dispatched rd)
  else rd.

Definition dispatch_event (rd : Reader) : Reader :=
  if is_empty (data rd) then
    mkReader (line rd) (after_cr rd) EmptyString EmptyString (dispatched rd)
  else
    mkReader (line rd) (after_cr rd) EmptyString EmptyString
             (dispatched rd ++
              [(if is_empty (event_type rd) then "message" else event_type rd,
                drop_last_lf (data rd))]).

Definition end_of_line (rd : Reader) : Reader :=
  let l := line rd in
  let rd :=
    mkReader EmptyString (after_cr rd) (event_type rd) (data rd) (dispatched rd) in
  match l with
  | EmptyString => dispatch_event rd
  | String c _ =>
      if (N_of_ascii c =? 58)%N then rd
      else match split_colon l with
           | Some (f, v) => process_field f (strip_space v) rd
           | None => process_field l EmptyString rd
           end
  end.

Definition with_after_cr (b : bool) (rd : Reader) : Reader :=
  mkReader (line rd) b (event_type rd) (data rd) (dispatched rd).

Definition feed_char (rd : Reader) (c : ascii) : Reader :=
  let n := N_of_ascii c in
  if (n =? 10)%N then
    if after_cr rd then with_after_cr false rd
    else end_of_line rd
  else if (n =? 13)%N then with_after_cr true (end_of_line rd)
  else
    mkReader (line rd +:+ String c EmptyString) false (event_type rd) (data rd)
             (dispatched rd).

Fixpoint feed (rd : Reader) (s : string) : Reader :=
  match s with
  | EmptyString => rd
  | String c r => feed (feed_char rd c) r
  end.

(** Reading the chunks of a response body one after the other. *)
Definition read (chunks : list string) : Reader :=
  foldl feed (ready []) chunks.

(** What [addEventListener(name, f)] passes to [f]: the data of the events
    dispatched under that name. *)
Definition heard (name : string) (rd : Reader) : list string :=
  omap (λ ev : string * string, if String.eqb ev.1 name then Some ev.2 else None)
       (dispatched rd).

End EventSource.

(** ** Reachable states and their invariant *)

Definition reachable (s : Server) : Prop :=
  ∃ env outcome evs, s = run evs (boot env outcome).

Definition frame (data : string) : list string :=
  [event_line; data_line data].

(** The chunks of a transcript that are not keep-alive frames. *)
Definition event_chunks (chunks : list string) : list string :=
  filter (λ ch, ch ≠ ping_frame) chunks.

(** Reception as the specification tells it, from the trace alone: the
    request of rank [next] opens consumer [next]; a consumer receives the
    events published between its attach and its close. *)
Fixpoint spec_received (c next : ResId) (attached : bool) (evs : list Event)
  : list Json :=
  match evs with
  | [] => []
  | GetEvents :: rest =>
      spec_received c (S next) (attached || bool_decide (next = c)) rest
  | ReqClose r :: rest =>
      spec_received c next (attached && negb (bool_decide (r = c))) rest
  | TopicData d :: rest =>
      (if attached then [d] else []) ++ spec_received c next attached rest
  | _ :: rest => spec_received c next attached rest
  end.

(** The same reading, keep-alive frames included: [None] is a keep-alive
    frame, [Some d] the frame of event [d]. *)
Fixpoint spec_units (c next : ResId) (attached : bool) (evs : list Event)
  : list (option Json) :=
  match evs with
  | [] => []
  | GetEvents :: rest =>
      spec_units c (S next) (attached || bool_decide (next = c)) rest
  | ReqClose r :: rest =>
      spec_units c next (attached && negb (bool_decide (r = c))) rest
  | TopicData d :: rest =>
      (if attached then [Some d] else []) ++ spec_units c next attached rest
  | PingFire r :: rest =>
      (if attached && bool_decide (r = c) then [None] else [])
      ++ spec_units c next attached rest
  | _ :: rest => spec_units c next attached rest
  end.

Definition unit_chunks (u : option Json) : list string :=
  match u with
  | Some d => frame (JSON_stringify d)
  | None => [ping_frame]
  end.

Record wf (s : Server) : Prop := mkWf {
  wf_nodup : NoDup (sseClients s);
  wf_clients : ∀ c, c ∈ sseClients s → (c < nextRes s)%nat;
  wf_heap : ∀ c, is_Some (responses s !! c) ↔ (c < nextRes s)%nat;
  wf_timers : ∀ c, is_Some (intervals s !! c) ↔ c ∈ sseClients s;
  wf_period : ∀ c p, intervals s !! c = Some p → p = PING_INTERVAL_MS;
  wf_flushed : ∀ c r, responses s !! c = Some r → flushed r ≤ length (written r);
  wf_serving : exited s = None → listening s = true ∧ is_Some (upstream s);
  wf_idle : exited s ≠ None → sseClients s = [] ∧ responses s = ∅
}.



(** Two states that differ at most in what was printed on the console. *)
Definition same_but_console (s s' : Server) : Prop :=
  exited s' = exited s ∧ listening s' = listening s ∧
  upstream s' = upstream s ∧ sseClients s' = sseClients s ∧
  intervals s' = intervals s ∧ responses s' = responses s ∧
  nextRes s' = nextRes s.

(** A change of a response object that never flushes more than was written. *)
Definition keeps_backlog (f : Response → Response) : Prop :=
  ∀ x, flushed x ≤ length (written x) → flushed (f x) ≤ length (written (f x)).

(** Whether a trace closes response [c]. *)
Definition closes (c : ResId) (evs : list Event) : Prop :=
  ReqClose c ∈ evs.

(** ** Sample inputs *)

Definition sample_env : Env :=
  mkEnv None (Some "relay@example.com") (Some "secret") (Some "token")
        (Some "Orders__e") None None.

(** An upstream message in the shape of the documented envelope. *)
Definition order_event (replay : Z) : Json :=
  JObj [("channel", JStr "/event/Orders__e");
        ("payload", JObj [("total", JNum 42)]);
        ("event", JObj [("replayId", JNum replay);
                        ("createdDate", JStr "2024-05-01T10:00:00Z")]);
        ("schema", JStr "q1w2e3")].

(** The server once [start] has returned normally. *)
Definition serving : Server := boot sample_env Started.

(** A frame as the relay writes it for [order_event 1], and one cut short. *)
Definition good_data : string := JSON_stringify (order_event 1).

Definition bad_data : string := "{oops".

(** The same event as the streaming API delivers it, with the payload and
    the replay id under [data]. *)
Definition cometd_message (replay : Z) : Json :=
  JObj [("data", JObj [("schema", JStr "q1w2e3");
                       ("payload", JObj [("total", JNum 42)]);
                       ("event", JObj [("replayId", JNum replay);
                                       ("createdDate", JStr "2024-05-01T10:00:00Z")])]);
        ("channel", JStr "/event/Orders__e")].

From stdpp Require Import sorting.

(** ** The filtered view of the client ([client/src/App.jsx]) *)

Module View.

(** [s.startsWith(search)]. *)
Fixpoint starts_with (search s : string) : bool :=
  match search, s with
  | EmptyString, _ => true
  | String a p, String b r => Ascii.eqb a b && starts_with p r
  | String _ _, EmptyString => false
  end.

(** [s.includes(search)]: [search] starts at some position of [s]. *)
Fixpoint includes (s search : string) : bool :=
  starts_with search s ||
  match s with
  | String _ r => includes r search
  | EmptyString => false
  end.

(** Lower case of the letters A to Z, the part of [toLowerCase] that plain
    ASCII text needs; used to run the view on concrete inputs. *)
Definition lower_char (c : ascii) : ascii :=
  let n := N_of_ascii c in
  if (65 <=? n)%N && (n <=? 90)%N then ascii_of_N (n + 32) else c.

Fixpoint ascii_lower (s : string) : string :=
  match s with
  | EmptyString => EmptyString
  | String c r => String (lower_char c) (ascii_lower r)
  end.

Section Filtered.
(** The platform's [String.prototype.toLowerCase]. *)
Variable toLowerCase : string → string.

(** The test of the [events.filter] callback. *)
Definition matches (f : string) (e : Client.Entry) : bool :=
  includes (toLowerCase (JSON_stringify (Client.payload e))) (toLowerCase f).

(** The [useMemo] that computes [filtered]. *)
Definition filtered (a : Client.App) : list Client.Entry :=
  match Client.filter a with
  | EmptyString => Client.events a
  | String _ _ => filter (λ e, matches (Client.filter a) e = true) (Client.events a)
  end.
End Filtered.

End View.

(** The number of [/events] requests in a trace. *)
Fixpoint attaches (evs : list Event) : nat :=
  match evs with
  | [] => 0
  | GetEvents :: rest => S (attaches rest)
  | _ :: rest => attaches rest
  end.

(** A client state with a filter typed in, for the examples. *)
Definition sample_app (f : string) : Client.App :=
  Client.mkApp true
    [Client.entry_of (cometd_message 3) "u3";
     Client.entry_of (JObj [("payload", JStr "Gadget")]) "u2";
     Client.entry_of (cometd_message 1) "u1"]
    f [].
(** ** The page the client renders ([client/src/App.jsx], the JSX of [App])

    Rendering an item of the list can throw: React refuses a plain object as
    a child, and [e.meta.schema.slice(0, 8)] is a call on whatever the schema
    is.  A throw while rendering leaves the page blank and the component
    gone. *)

Module Page.

(** JavaScript truthiness of a value. *)
Definition truthy_value (v : Client.JsVal) : bool :=
  match v with
  | None | Some JNull | Some (JBool false) => false
  | Some (JNum z) => negb (z =? 0)%Z
  | Some (JStr EmptyString) => false
  | Some _ => true
  end.

(** What React accepts as a child: strings and numbers are shown, booleans
    and null show nothing, an array shows its elements, a plain object
    throws. *)
Fixpoint valid_child (j : Json) : bool :=
  match j with
  | JObj _ => false
  | JArr xs => forallb valid_child xs
  | _ => true
  end.

Definition child_ok (v : Client.JsVal) : bool :=
  match v with
  | Some j => valid_child j
  | None => true
  end.

(** [{e.meta.schema && <span>... {e.meta.schema.slice(0, 8)} ...</span>}]:
    a falsy schema is itself the child; a truthy one must have [slice],
    which strings and arrays do. *)
Definition schema_ok (v : Client.JsVal) : bool :=
  if truthy_value v then
    match v with
    | Some (JStr _) => true
    | Some (JArr xs) => forallb valid_child (take 8 xs)
    | _ => false
    end
  else true.

(** One [<li>] of the list: the channel is a child as it is, the schema as
    above; the creation date goes through [new Date(...).toLocaleString()]
    and the payload through [JSON.stringify], which give strings. *)
Definition item_renders (e : Client.Entry) : bool :=
  child_ok (Client.type (Client.meta e)) &&
  schema_ok (Client.schema (Client.meta e)).

Inductive Page : Type :=
| Mounted (a : Client.App)
| Blank.

Section Browser.
Variable JSON_parse : string → option Json.
Variable toLowerCase : string → string.

(** The render of [App] goes through when every item of [filtered] does. *)
Definition renders (a : Client.App) : bool :=
  forallb item_renders (View.filtered toLowerCase a).

(** An action reaches the component while it is mounted and is followed by
    a render of the new state. *)
Definition deliver (p : Page) (act : Client.Action) : Page :=
  match p with
  | Blank => Blank
  | Mounted a =>
      let a' := Client.dispatch JSON_parse act a in
      if renders a' then Mounted a' else Blank
  end.

Definition browse (acts : list Client.Action) : Page :=
  foldl deliver (Mounted Client.init) acts.
End Browser.

End Page.

(** ** The definitions on small inputs *)

Example stringify_array :
  JSON_stringify (JArr [JNum 1; JNum (-20); JNum 0; JNull; JBool true; JObj []; JArr []])
  = "[1,-20,0,null,true,{},[]]".
Proof. reflexivity. Qed.

Example stringify_escapes :
  JSON_stringify (JStr ("a" +:+ nl +:+ "b\" +:+ String (ascii_of_N 31) EmptyString))
  = Js.dquote +:+ "a\nb\\\u001f" +:+ Js.dquote.
Proof. reflexivity. Qed.

Example stringify_object :
  JSON_stringify (JObj [("ok", JBool true); ("n", JNum 7)])
  = "{" +:+ Js.dquote +:+ "ok" +:+ Js.dquote +:+ ":true,"
        +:+ Js.dquote +:+ "n" +:+ Js.dquote +:+ ":7}".
Proof. reflexivity. Qed.

Example parse_spaced_array :
  JsonText.parse " [1, -20 , [ ], true ] " =
    Some (JArr [JNum 1; JNum (-20); JArr []; JBool true]).
Proof. reflexivity. Qed.

Example parse_rejects :
  map JsonText.parse ["{oops"; "[1,]"; "01"; "nul"; "[1] 2"; EmptyString] =
    [None; None; None; None; None; None].
Proof. reflexivity. Qed.

Example parse_stringify_sample :
  JsonText.parse (JSON_stringify (cometd_message 12)) = Some (cometd_message 12).
Proof. vm_compute. reflexivity. Qed.

Example boot_without_password :
  exited (boot (mkEnv None (Some "relay@example.com") (Some EmptyString)
                      (Some "token") None None None) Started) = Some 1%Z.
Proof. reflexivity. Qed.

Example boot_serving :
  exited serving = None ∧ listening serving = true ∧
  upstream serving = Some (mkSubscription "/event/Orders__e" (-1)%Z).
Proof. by vm_compute. Qed.

Example attach_broadcast_close :
  let s := run [GetEvents; TopicData (JNum 5); GetEvents; PingFire 0;
                ReqClose 0; TopicData (JNum 6); PingFire 0] serving in
  written_of s 0 = ["event: platformEvent" +:+ nl; "data: 5" +:+ nl +:+ nl;
                    ":ping" +:+ nl +:+ nl] ∧
  written_of s 1 = ["event: platformEvent" +:+ nl; "data: 6" +:+ nl +:+ nl] ∧
  sseClients s = [1].
Proof. by vm_compute. Qed.

Example reader_skips_comments :
  EventSource.dispatched
    (EventSource.read [":ping" +:+ nl +:+ nl; "event: platformEvent" +:+ nl;
                       "data: 5" +:+ nl +:+ nl; ":ping" +:+ nl +:+ nl;
                       "data: x" +:+ nl; "data: y" +:+ nl +:+ nl]) =
    [("platformEvent", "5"); ("message", "x" +:+ nl +:+ "y")].
Proof. reflexivity. Qed.

Example client_entry_of_message :
  Client.entry_of (cometd_message 12) "1a2b" =
    Client.mkEntry (JNum 12) (JObj [("total", JNum 42)])
      (Client.mkMeta (Some (JStr "2024-05-01T10:00:00Z"))
                     (Some (JStr "/event/Orders__e"))
                     (Some (JStr "q1w2e3")))
      (cometd_message 12).
Proof. reflexivity. Qed.

Example client_entry_without_data :
  Client.id (Client.entry_of (order_event 12) "1a2b") = JStr "1a2b" ∧
  Client.payload (Client.entry_of (order_event 12) "1a2b") =
    JObj [("total", JNum 42)] ∧
  Client.payload (Client.entry_of JNull "1a2b") = JNull.
Proof. by vm_compute. Qed.

Section Printable.
Implicit Types (s t : string) (j : Json).

Lemma all_printable_app s t :
  all_printable (s +:+ t) = all_printable s && all_printable t.
Proof.
  induction s as [|a s IH]; simpl; [done|]. by rewrite IH, andb_assoc.
Qed.

Lemma all_printable_escape_char (c : ascii) : all_printable (Js.escape_char c) = true.
Proof. destruct c as [[] [] [] [] [] [] [] []]; reflexivity. Qed.

Lemma all_printable_escape s : all_printable (Js.escape s) = true.
Proof.
  induction s as [|a s IH]; simpl; [done|].
  by rewrite all_printable_app, all_printable_escape_char, IH.
Qed.

Lemma all_printable_quote s : all_printable (Js.quote s) = true.
Proof.
  unfold Js.quote. by rewrite !all_printable_app, all_printable_escape.
Qed.

Lemma all_printable_uint (d : Decimal.uint) :
  all_printable (NilEmpty.string_of_uint d) = true.
Proof. induction d; simpl; done. Qed.

Lemma all_printable_number (z : Z) : all_printable (Js.number_toString z) = true.
Proof.
  unfold Js.number_toString, NilZero.string_of_int, NilZero.string_of_uint.
  destruct (Z.to_int z) as [d|d]; destruct d; simpl;
    try done; apply all_printable_uint.
Qed.

Lemma all_printable_join sep (parts : list string) :
  all_printable sep = true →
  Forall (λ p, all_printable p = true) parts →
  all_printable (Js.join sep parts) = true.
Proof.
  intros Hsep. induction 1 as [|p parts Hp Hps IH]; [done|].
  destruct parts as [|q parts]; [done|].
  change (Js.join sep (p :: q :: parts))
    with (p +:+ sep +:+ Js.join sep (q :: parts)).
  by rewrite !all_printable_app, Hp, Hsep, IH.
Qed.

(** The serialisation never holds a raw line break. *)
Lemma all_printable_stringify j : all_printable (JSON_stringify j) = true.
Proof.
  induction j as [|[]|z|s|xs IH|kvs IH] using Json_nested_ind; simpl;
    try done.
  - apply all_printable_number.
  - apply all_printable_quote.
  - rewrite all_printable_app; simpl. rewrite all_printable_app; simpl.
    rewrite all_printable_join; [done..|].
    by apply Forall_fmap.
  - rewrite all_printable_app; simpl. rewrite all_printable_app; simpl.
    rewrite all_printable_join; [done..|].
    apply Forall_fmap. eapply Forall_impl; [exact IH|].
    intros [k v] Hv. cbn [snd] in Hv. unfold compose.
    by rewrite !all_printable_app, all_printable_quote, Hv.
Qed.
End Printable.

Section ServerLemmas.
Implicit Types (s : Server) (c r : ResId) (l : list ResId).

Lemma elem_of_set_add c x l : c ∈ set_add x l ↔ c ∈ l ∨ c = x.
Proof.
  unfold set_add. case_decide as Hx.
  - split; [by left | intros [?| ->]; done].
  - rewrite elem_of_app, list_elem_of_singleton. tauto.
Qed.

Lemma NoDup_set_add x l : NoDup l → NoDup (set_add x l).
Proof.
  intros Hl. unfold set_add. case_decide as Hx; [done|].
  apply NoDup_app. split_and!; [done| |apply NoDup_singleton].
  intros y Hy ->%list_elem_of_singleton. done.
Qed.

Lemma elem_of_set_delete c x l : c ∈ set_delete x l ↔ c ∈ l ∧ c ≠ x.
Proof. unfold set_delete. rewrite list_elem_of_filter. tauto. Qed.

Lemma NoDup_set_delete x l : NoDup l → NoDup (set_delete x l).
Proof. apply NoDup_filter. Qed.

Lemma set_delete_absent x l : x ∉ l → set_delete x l = l.
Proof.
  intros Hx. unfold set_delete. induction l as [|y l IH]; [done|].
  rewrite filter_cons. apply not_elem_of_cons in Hx as [Hxy Hx].
  case_decide; [by rewrite IH | congruence].
Qed.

(** One pass of the broadcast loop over a list of members changes only the
    response objects. *)
Lemma loop_frame data l s :
  let s' := foldl (write_event data) s l in
  exited s' = exited s ∧ listening s' = listening s ∧
  upstream s' = upstream s ∧ sseClients s' = sseClients s ∧
  intervals s' = intervals s ∧ nextRes s' = nextRes s ∧
  console s' = console s.
Proof.
  revert s. induction l as [|r l IH]; intros s; simpl; [done|].
  specialize (IH (write_event data s r)). simpl in IH. exact IH.
Qed.

Lemma loop_responses data l s c :
  NoDup l →
  responses (foldl (write_event data) s l) !! c =
    if decide (c ∈ l) then write_frame data <$> responses s !! c
    else responses s !! c.
Proof.
  revert s. induction l as [|r l IH]; intros s Hl; simpl; [done|].
  apply NoDup_cons in Hl as [Hr Hl]. rewrite IH by done.
  unfold write_event, res_write; simpl.
  destruct (decide (c = r)) as [->|Hne].
  - rewrite decide_False by done. rewrite decide_True by left.
    rewrite !lookup_alter_eq. by destruct (responses s !! r).
  - rewrite !lookup_alter_ne by done.
    destruct (decide (c ∈ l)) as [Hc|Hc].
    + by rewrite decide_True by (by right).
    + rewrite decide_False; [done|]. rewrite elem_of_cons. tauto.
Qed.
End ServerLemmas.

Section Invariant.
Implicit Types (s : Server) (c r : ResId).

Lemma wf_boot env outcome : wf (boot env outcome).
Proof.
  unfold boot, start. destruct (creds_missing env); [|destruct outcome];
    split; simpl; try done; try apply NoDup_nil_2;
    try (intros c; rewrite ?lookup_empty);
    try (intros ? [? ?]; done); try (intros ?%elem_of_nil; done);
    try (split; [intros [? ?]; done | lia]);
    try (split; [intros [? ?]; done | intros ?%elem_of_nil; done]);
    try (split; [done | by eexists]).
Qed.

Lemma wf_get_events s : wf s → exited s = None → wf (get_events s).
Proof.
  intros [Hnd Hcl Hheap Htm Hper Hfl Hsrv Hidle] Hex.
  unfold get_events. split; simpl.
  - by apply NoDup_set_add.
  - intros c [Hc| ->]%elem_of_set_add; [apply Hcl in Hc|]; lia.
  - intros c. destruct (decide (c = nextRes s)) as [->|Hne].
    + rewrite lookup_insert_eq. split; [lia | by eexists].
    + rewrite lookup_insert_ne by done. rewrite Hheap. lia.
  - intros c. rewrite elem_of_set_add.
    destruct (decide (c = nextRes s)) as [->|Hne].
    + rewrite lookup_insert_eq. split; [by right | by eexists].
    + rewrite lookup_insert_ne by done. rewrite Htm. split; [by left | by intros [?|?]].
  - intros c p. destruct (decide (c = nextRes s)) as [->|Hne].
    + rewrite lookup_insert_eq. congruence.
    + rewrite lookup_insert_ne by done. apply Hper.
  - intros c r. destruct (decide (c = nextRes s)) as [->|Hne].
    + rewrite lookup_insert_eq. intros [= <-]. simpl. lia.
    + rewrite lookup_insert_ne by done. apply Hfl.
  - done.
  - done.
Qed.

Lemma wf_on_close r s : wf s → wf (on_close r s).
Proof.
  intros [Hnd Hcl Hheap Htm Hper Hfl Hsrv Hidle].
  unfold on_close. split; simpl; try done.
  - by apply NoDup_set_delete.
  - intros c [Hc _]%elem_of_set_delete. by apply Hcl.
  - intros c. rewrite elem_of_set_delete.
    destruct (decide (c = r)) as [->|Hne].
    + rewrite lookup_delete_eq. split; [intros [? ?]; done | tauto].
    + rewrite lookup_delete_ne by done. rewrite Htm. tauto.
  - intros c p. destruct (decide (c = r)) as [->|Hne].
    + by rewrite lookup_delete_eq.
    + rewrite lookup_delete_ne by done. apply Hper.
  - intros Hex. destruct (Hidle Hex) as [-> ->]. done.
Qed.

Lemma keeps_backlog_write chunk : keeps_backlog (write_chunk chunk).
Proof. intros x Hx. simpl. rewrite length_app. lia. Qed.

Lemma keeps_backlog_take n : keeps_backlog (take_chunks n).
Proof. intros x Hx. simpl. lia. Qed.

Lemma wf_alter_responses (f : Response → Response) r s :
  keeps_backlog f → wf s → exited s = None →
  wf (with_responses (alter f r (responses s)) s).
Proof.
  intros Hf [Hnd Hcl Hheap Htm Hper Hfl Hsrv Hidle] Hex.
  split; simpl; try done.
  - intros c. rewrite <- Hheap. rewrite lookup_alter.
    case_decide; [subst|done]. by rewrite fmap_is_Some.
  - intros c x. rewrite lookup_alter. case_decide; [subst|apply Hfl].
    destruct (responses s !! c) as [y|] eqn:Hy; [|done].
    intros [= <-]. by apply Hf, (Hfl c).
Qed.

Lemma wf_log lv args s : wf s → wf (log lv args s).
Proof. intros []. by split. Qed.

Lemma wf_broadcastEvent evt s : wf s → exited s = None → wf (broadcastEvent evt s).
Proof.
  intros Hwf Hex. unfold broadcastEvent.
  pose proof (loop_frame (JSON_stringify evt) (sseClients s) s) as Hf.
  simpl in Hf. destruct Hf as (He & Hl & Hu & Hc & Hi & Hn & _).
  destruct Hwf as [Hnd Hcl Hheap Htm Hper Hfl Hsrv Hidle].
  split; rewrite ?He, ?Hl, ?Hu, ?Hc, ?Hi, ?Hn; try done.
  - intros c. rewrite loop_responses by done. rewrite <- Hheap.
    case_decide; [by rewrite fmap_is_Some | done].
  - intros c x. rewrite loop_responses by done.
    case_decide; [|apply Hfl].
    destruct (responses s !! c) as [y|] eqn:Hy; [|done].
    intros [= <-]. unfold write_frame.
    by apply keeps_backlog_write, keeps_backlog_write, (Hfl c).
Qed.

Lemma wf_handle ev s : wf s → wf (handle ev s).
Proof.
  intros Hwf. unfold handle. destruct (exited s) eqn:Hex; [done|].
  destruct ev; simpl.
  - destruct (listening s); [by apply wf_get_events | done].
  - done.
  - by apply wf_on_close.
  - unfold ping. destruct (intervals s !! res); [|done].
    apply wf_alter_responses; [apply keeps_backlog_write|done..].
  - apply wf_alter_responses; [apply keeps_backlog_take|done..].
  - destruct (upstream s); [|done]. unfold on_data.
    apply wf_broadcastEvent; [by apply wf_log | done].
  - unfold on_subscribed. destruct (upstream s); [by apply wf_log | done].
  - unfold on_subscribe_error. destruct (upstream s); [by apply wf_log | done].
  - destruct (upstream s); [by apply wf_log | done].
Qed.

Lemma wf_run evs s : wf s → wf (run evs s).
Proof.
  revert s. induction evs as [|ev evs IH]; intros s Hwf; simpl; [done|].
  apply IH. by apply wf_handle.
Qed.

Lemma reachable_wf s : reachable s → wf s.
Proof. intros (env & outcome & evs & ->). apply wf_run, wf_boot. Qed.

End Invariant.

Section Transcripts.
Implicit Types (s : Server) (c r : ResId).

Lemma heap_of_client s c : wf s → c ∈ sseClients s → is_Some (responses s !! c).
Proof. intros Hwf Hc. apply (wf_heap s Hwf), (wf_clients s Hwf), Hc. Qed.

Lemma written_log lv args s c : written_of (log lv args s) c = written_of s c.
Proof. done. Qed.

Lemma written_broadcastEvent evt s c :
  wf s →
  written_of (broadcastEvent evt s) c =
    written_of s c ++
    (if decide (c ∈ sseClients s) then frame (JSON_stringify evt) else []).
Proof.
  intros Hwf. unfold written_of, broadcastEvent.
  rewrite loop_responses by apply (wf_nodup s Hwf).
  case_decide as Hc; [|by rewrite app_nil_r].
  destruct (heap_of_client s c Hwf Hc) as [resp ->]. simpl.
  by rewrite <- app_assoc.
Qed.

Lemma written_get_events s c :
  wf s → written_of (get_events s) c = written_of s c.
Proof.
  intros Hwf. unfold written_of, get_events; simpl.
  destruct (decide (c = nextRes s)) as [->|Hne].
  - rewrite lookup_insert_eq.
    destruct (responses s !! nextRes s) eqn:Hr; [|done].
    assert (nextRes s < nextRes s) by (apply (wf_heap s Hwf); by eexists). lia.
  - by rewrite lookup_insert_ne.
Qed.

Lemma written_ping r s c :
  wf s →
  written_of (ping r s) c =
    written_of s c ++ (if decide (c = r ∧ r ∈ sseClients s) then [ping_frame] else []).
Proof.
  intros Hwf. unfold ping.
  destruct (intervals s !! r) eqn:Hi.
  - assert (r ∈ sseClients s) as Hr by (apply (wf_timers s Hwf); by eexists).
    unfold written_of, res_write; simpl.
    destruct (decide (c = r)) as [->|Hne].
    + rewrite lookup_alter_eq. rewrite decide_True by done.
      by destruct (heap_of_client s r Hwf Hr) as [resp ->].
    + rewrite lookup_alter_ne by done. rewrite decide_False by tauto.
      by rewrite app_nil_r.
  - rewrite decide_False; [by rewrite app_nil_r|]. intros [_ Hr].
    apply (wf_timers s Hwf) in Hr as [? ?]. congruence.
Qed.

Lemma written_socket_drain r n s c :
  written_of (socket_drain r n s) c = written_of s c.
Proof.
  unfold written_of, socket_drain; simpl.
  destruct (decide (c = r)) as [->|Hne].
  - rewrite lookup_alter_eq. by destruct (responses s !! r).
  - by rewrite lookup_alter_ne.
Qed.

Lemma exited_broadcastEvent evt s : exited (broadcastEvent evt s) = exited s.
Proof. apply (loop_frame (JSON_stringify evt) (sseClients s) s). Qed.

Lemma nextRes_broadcastEvent evt s : nextRes (broadcastEvent evt s) = nextRes s.
Proof. apply (loop_frame (JSON_stringify evt) (sseClients s) s). Qed.

Lemma sseClients_broadcastEvent evt s :
  sseClients (broadcastEvent evt s) = sseClients s.
Proof. apply (loop_frame (JSON_stringify evt) (sseClients s) s). Qed.

Lemma upstream_broadcastEvent evt s : upstream (broadcastEvent evt s) = upstream s.
Proof. apply (loop_frame (JSON_stringify evt) (sseClients s) s). Qed.

Lemma intervals_broadcastEvent evt s :
  intervals (broadcastEvent evt s) = intervals s.
Proof. apply (loop_frame (JSON_stringify evt) (sseClients s) s). Qed.

Lemma exited_handle ev s : exited (handle ev s) = exited s.
Proof.
  unfold handle. destruct (exited s) eqn:Hex; [done|].
  destruct ev; simpl; try done.
  - by destruct (listening s).
  - unfold ping. by destruct (intervals s !! res).
  - destruct (upstream s); [|done]. unfold on_data.
    by rewrite exited_broadcastEvent.
  - unfold on_subscribed. by destruct (upstream s).
  - unfold on_subscribe_error. by destruct (upstream s).
  - by destruct (upstream s).
Qed.

Lemma exited_run evs s : exited (run evs s) = exited s.
Proof.
  revert s. induction evs as [|ev evs IH]; intros s; simpl; [done|].
  by rewrite IH, exited_handle.
Qed.

Lemma upstream_handle ev s : upstream (handle ev s) = upstream s.
Proof.
  unfold handle. destruct (exited s); [done|].
  destruct ev; simpl; try done.
  - by destruct (listening s).
  - unfold ping. by destruct (intervals s !! res).
  - destruct (upstream s) eqn:Hu; [|done]. unfold on_data.
    by rewrite upstream_broadcastEvent.
  - unfold on_subscribed. destruct (upstream s) eqn:Hu; simpl; congruence.
  - unfold on_subscribe_error. destruct (upstream s) eqn:Hu; simpl; congruence.
  - destruct (upstream s) eqn:Hu; simpl; congruence.
Qed.

Lemma upstream_run evs s : upstream (run evs s) = upstream s.
Proof.
  revert s. induction evs as [|ev evs IH]; intros s; simpl; [done|].
  by rewrite IH, upstream_handle.
Qed.

End Transcripts.


Section Membership.
Implicit Types (s : Server) (c r : ResId).

Lemma sseClients_handle ev s :
  sseClients (handle ev s) =
    match exited s, ev with
    | None, GetEvents =>
        if listening s then set_add (nextRes s) (sseClients s) else sseClients s
    | None, ReqClose r => set_delete r (sseClients s)
    | _, _ => sseClients s
    end.
Proof.
  unfold handle. destruct (exited s); [done|].
  destruct ev; simpl; try done.
  - by destruct (listening s).
  - unfold ping. by destruct (intervals s !! res).
  - destruct (upstream s); [|done]. unfold on_data.
    by rewrite sseClients_broadcastEvent.
  - unfold on_subscribed. by destruct (upstream s).
  - unfold on_subscribe_error. by destruct (upstream s).
  - by destruct (upstream s).
Qed.

Lemma nextRes_handle ev s :
  nextRes (handle ev s) =
    match exited s, ev with
    | None, GetEvents => if listening s then S (nextRes s) else nextRes s
    | _, _ => nextRes s
    end.
Proof.
  unfold handle. destruct (exited s); [done|].
  destruct ev; simpl; try done.
  - by destruct (listening s).
  - unfold ping. by destruct (intervals s !! res).
  - destruct (upstream s); [|done]. unfold on_data.
    by rewrite nextRes_broadcastEvent.
  - unfold on_subscribed. by destruct (upstream s).
  - unfold on_subscribe_error. by destruct (upstream s).
  - by destruct (upstream s).
Qed.

(** A response leaves [sseClients] through its own close signal only. *)
Lemma client_removed ev s c :
  c ∈ sseClients s → c ∉ sseClients (handle ev s) → ev = ReqClose c.
Proof.
  rewrite sseClients_handle. intros Hc Hout.
  destruct (exited s); [done|]. destruct ev; try done.
  - destruct (listening s); [|done]. exfalso. apply Hout.
    apply elem_of_set_add. by left.
  - destruct (decide (res = c)) as [->|Hne]; [done|].
    exfalso. apply Hout. by apply elem_of_set_delete.
Qed.

Lemma written_handle_absent ev s c :
  wf s → c ∉ sseClients s → written_of (handle ev s) c = written_of s c.
Proof.
  intros Hwf Hc. unfold handle. destruct (exited s); [done|].
  destruct ev; simpl; try done.
  - destruct (listening s); [|done]. by apply written_get_events.
  - rewrite written_ping by done. rewrite decide_False; [by rewrite app_nil_r|].
    by intros [-> ?].
  - apply written_socket_drain.
  - destruct (upstream s); [|done]. unfold on_data.
    rewrite written_broadcastEvent by by apply wf_log. simpl.
    rewrite decide_False by done. by rewrite app_nil_r.
  - unfold on_subscribed. by destruct (upstream s).
  - unfold on_subscribe_error. by destruct (upstream s).
  - by destruct (upstream s).
Qed.

(** Once closed, a response that exists stays out of [sseClients] and is
    never written to again. *)
Lemma closed_stays_closed evs : ∀ s c,
  wf s → (c < nextRes s) → c ∉ sseClients s →
  (c ∉ sseClients (run evs s)) ∧ written_of (run evs s) c = written_of s c.
Proof.
  induction evs as [|ev evs IH]; intros s c Hwf Hlt Hc; simpl; [done|].
  destruct (IH (handle ev s) c) as [H1 H2].
  - by apply wf_handle.
  - rewrite nextRes_handle. destruct (exited s); [done|].
    destruct ev; try done. destruct (listening s); lia.
  - rewrite sseClients_handle. destruct (exited s); [done|].
    destruct ev; try done.
    + destruct (listening s); [|done].
      rewrite elem_of_set_add. intros [?| ->]; [done|lia].
    + rewrite elem_of_set_delete. tauto.
  - split; [done|]. rewrite H2. by apply written_handle_absent.
Qed.

Lemma on_close_absent r s :
  r ∉ sseClients s → intervals s !! r = None → on_close r s = s.
Proof.
  intros Hr Hi. unfold on_close, with_sseClients, with_intervals; simpl.
  rewrite set_delete_absent by done. rewrite delete_id by done.
  by destruct s.
Qed.

Lemma queue_write chunk (x : Response) :
  flushed x ≤ length (written x) →
  outboundQueue (write_chunk chunk x) = outboundQueue x ++ [chunk].
Proof. intros Hx. unfold outboundQueue; simpl. by rewrite drop_app_le. Qed.

Lemma queue_broadcastEvent evt s c :
  wf s →
  queue_of (broadcastEvent evt s) c =
    queue_of s c ++
    (if decide (c ∈ sseClients s) then frame (JSON_stringify evt) else []).
Proof.
  intros Hwf. unfold queue_of, broadcastEvent.
  rewrite loop_responses by apply (wf_nodup s Hwf).
  case_decide as Hc; [|by rewrite app_nil_r].
  destruct (heap_of_client s c Hwf Hc) as [x Hx]. rewrite Hx. simpl.
  pose proof (wf_flushed s Hwf c x Hx) as Hfl.
  unfold write_frame. rewrite queue_write.
  - rewrite queue_write by done. by rewrite <- app_assoc.
  - by apply keeps_backlog_write.
Qed.
End Membership.

Section Reading.
Import EventSource.
Implicit Types (rd : Reader) (s t j : string) (out : list (string * string)).

Lemma feed_app rd s t : feed rd (s +:+ t) = feed (feed rd s) t.
Proof.
  revert rd. induction s as [|c s IH]; intros rd; cbn [String.append feed];
    [done|apply IH].
Qed.

Lemma string_app_cons (c : ascii) s t : String c s +:+ t = String c (s +:+ t).
Proof. reflexivity. Qed.

Lemma string_app_nil_r s : s +:+ EmptyString = s.
Proof.
  induction s as [|c s IH]; [done|]. by rewrite string_app_cons, IH.
Qed.

Lemma string_app_assoc s t j : (s +:+ t) +:+ j = s +:+ (t +:+ j).
Proof.
  induction s as [|c s IH]; [done|]. by rewrite !string_app_cons, IH.
Qed.

(** Characters at or above the space only lengthen the current line. *)
Lemma feed_printable j : ∀ l ty d out,
  all_printable j = true →
  feed (mkReader l false ty d out) j = mkReader (l +:+ j) false ty d out.
Proof.
  induction j as [|c j IH]; intros l ty d out Hj.
  - by rewrite string_app_nil_r.
  - cbn [all_printable] in Hj. apply andb_prop in Hj as [Hc Hj].
    apply N.leb_le in Hc. cbn [feed]. unfold feed_char.
    destruct (N.eqb_spec (N_of_ascii c) 10) as [E|_]; [lia|].
    destruct (N.eqb_spec (N_of_ascii c) 13) as [E|_]; [lia|].
    cbn [line after_cr event_type data dispatched].
    rewrite IH by done. f_equal. apply string_app_assoc.
Qed.

Lemma is_empty_app_nl j : is_empty (j +:+ nl) = false.
Proof. by destruct j. Qed.

Lemma drop_last_lf_app_nl j : drop_last_lf (j +:+ nl) = j.
Proof.
  induction j as [|c j IH]; [done|].
  change (String c j +:+ nl) with (String c (j +:+ nl)).
  destruct j as [|c' j]; [done|].
  change (drop_last_lf (String c (String c' j +:+ nl)))
    with (String c (drop_last_lf (String c' j +:+ nl))).
  by rewrite IH.
Qed.

Lemma read_ping out : feed (ready out) ping_frame = ready out.
Proof. reflexivity. Qed.

Lemma read_event_line out :
  feed (ready out) event_line =
    mkReader EmptyString false "platformEvent" EmptyString out.
Proof. reflexivity. Qed.

Lemma read_data_line j out :
  all_printable j = true →
  feed (mkReader EmptyString false "platformEvent" EmptyString out) (data_line j) =
    ready (out ++ [("platformEvent", j)]).
Proof.
  intros Hj. unfold data_line.
  change ("data: " +:+ j +:+ nl +:+ nl) with ("data: " +:+ (j +:+ (nl +:+ nl))).
  rewrite feed_app. rewrite feed_printable by done.
  rewrite feed_app. rewrite feed_printable by done.
  change (feed ?rd (nl +:+ nl))
    with (feed_char (feed_char rd (ascii_of_N 10)) (ascii_of_N 10)).
  change (feed_char ?rd (ascii_of_N 10))
    with (if after_cr rd then with_after_cr false rd else end_of_line rd) at 2.
  cbn [after_cr].
  change (end_of_line _)
    with (mkReader EmptyString false "platformEvent" (j +:+ nl) out).
  change (feed_char ?rd (ascii_of_N 10))
    with (if after_cr rd then with_after_cr false rd else end_of_line rd).
  cbn [after_cr]. unfold end_of_line, dispatch_event.
  cbn [line after_cr event_type data dispatched].
  by rewrite is_empty_app_nl, drop_last_lf_app_nl.
Qed.

Lemma read_frame d out :
  foldl feed (ready out) (frame (JSON_stringify d)) =
    ready (out ++ [("platformEvent", JSON_stringify d)]).
Proof.
  unfold frame. cbn [foldl]. rewrite read_event_line.
  apply read_data_line, all_printable_stringify.
Qed.

Lemma read_units (us : list (option Json)) : ∀ out,
  foldl feed (ready out) (us ≫= unit_chunks) =
    ready (out ++ map (λ d, ("platformEvent", JSON_stringify d)) (omap id us)).
Proof.
  induction us as [|[d|] us IH]; intros out.
  - simpl. by rewrite app_nil_r.
  - change ((Some d :: us) ≫= unit_chunks)
      with (frame (JSON_stringify d) ++ (us ≫= unit_chunks)).
    rewrite foldl_app, read_frame, IH. simpl. by rewrite <- app_assoc.
  - change ((None :: us) ≫= unit_chunks) with (ping_frame :: (us ≫= unit_chunks)).
    cbn [foldl]. rewrite read_ping. apply IH.
Qed.

Lemma heard_platform (ds : list Json) :
  heard "platformEvent"
    (ready (map (λ d, ("platformEvent", JSON_stringify d)) ds)) =
    map JSON_stringify ds.
Proof.
  unfold heard, ready. cbn [dispatched].
  induction ds as [|d ds IH]; [done|].
  change (JSON_stringify d ::
          omap (λ ev : string * string,
                  if String.eqb ev.1 "platformEvent" then Some ev.2 else None)
               (map (λ d, ("platformEvent", JSON_stringify d)) ds) =
          JSON_stringify d :: map JSON_stringify ds).
  by rewrite IH.
Qed.
End Reading.

Section Units.
Implicit Types (s : Server) (c : ResId).

Lemma spec_units_received c evs : ∀ next attached,
  omap id (spec_units c next attached evs) = spec_received c next attached evs.
Proof.
  induction evs as [|ev evs IH]; intros next attached; [done|].
  destruct ev; simpl; try apply IH.
  - rewrite omap_app, IH. by destruct (attached && bool_decide (res = c)).
  - rewrite omap_app, IH. by destruct attached.
Qed.

(** The whole transcript of a response, chunk by chunk. *)
Lemma trace_written evs : ∀ s c,
  wf s → exited s = None →
  written_of (run evs s) c =
    written_of s c ++
    (spec_units c (nextRes s) (bool_decide (c ∈ sseClients s)) evs ≫= unit_chunks).
Proof.
  induction evs as [|ev evs IH]; intros s c Hwf Hex; simpl.
  { by rewrite app_nil_r. }
  assert (wf (handle ev s)) as Hwf' by by apply wf_handle.
  assert (exited (handle ev s) = None) as Hex' by by rewrite exited_handle.
  rewrite (IH _ c Hwf' Hex'). clear IH Hwf' Hex'.
  destruct (wf_serving s Hwf Hex) as [Hlisten [u Hup]].
  rewrite sseClients_handle, nextRes_handle, Hex.
  unfold handle. rewrite Hex. destruct ev; simpl.
  - rewrite Hlisten. rewrite written_get_events by done.
    do 3 f_equal. rewrite <- bool_decide_or. apply bool_decide_ext.
    rewrite elem_of_set_add. split; intros [?|?]; auto.
  - done.
  - do 3 f_equal. rewrite <- bool_decide_not, <- bool_decide_and.
    apply bool_decide_ext. rewrite elem_of_set_delete.
    split; intros [? ?]; auto.
  - rewrite written_ping by done. rewrite bind_app, <- app_assoc. do 2 f_equal.
    rewrite <- bool_decide_and.
    destruct (decide (c = res ∧ res ∈ sseClients s)) as [[-> Hin]|Hno].
    + by rewrite bool_decide_eq_true_2 by done.
    + rewrite bool_decide_eq_false_2; [done|]. intros [Hin ->]. by apply Hno.
  - by rewrite written_socket_drain.
  - rewrite Hup. unfold on_data.
    rewrite written_broadcastEvent by by apply wf_log.
    simpl. rewrite written_log, bind_app, <- app_assoc. do 2 f_equal.
    case_bool_decide as Hc.
    + by rewrite decide_True by done.
    + by rewrite decide_False by done.
  - unfold on_subscribed. by rewrite Hup.
  - unfold on_subscribe_error. by rewrite Hup.
  - by rewrite Hup.
Qed.

(** Every transcript the server can produce is a sequence of whole frames. *)
Lemma reachable_units s c :
  reachable s → exited s = None →
  ∃ us, written_of s c = us ≫= unit_chunks.
Proof.
  intros (env & outcome & evs & ->) Hex.
  rewrite exited_run in Hex.
  rewrite trace_written; [|apply wf_boot|done].
  assert (written_of (boot env outcome) c = []) as ->.
  { unfold written_of.
    destruct (responses (boot env outcome) !! c) eqn:Hr; [|done].
    assert (c < nextRes (boot env outcome)) as Hlt
      by (apply (wf_heap _ (wf_boot env outcome)); by eexists).
    revert Hlt. unfold boot, start.
    destruct (creds_missing env), outcome; simpl; lia. }
  by eexists.
Qed.

Lemma event_chunks_units (us : list (option Json)) :
  event_chunks (us ≫= unit_chunks) =
    flat_map (λ d, frame (JSON_stringify d)) (omap id us).
Proof.
  induction us as [|[d|] us IH]; [done| |].
  - change ((Some d :: us) ≫= unit_chunks)
      with ([] ++ frame (JSON_stringify d) ++ (us ≫= unit_chunks)).
    rewrite app_nil_l. unfold event_chunks in *.
    rewrite filter_app, IH. by f_equal.
  - change ((None :: us) ≫= unit_chunks) with (ping_frame :: (us ≫= unit_chunks)).
    unfold event_chunks in *. rewrite filter_cons_False by tauto. exact IH.
Qed.

(** The event frames of every response, against the trace reading of the
    specification. *)
Lemma trace_received evs s c :
  wf s → exited s = None →
  event_chunks (written_of (run evs s) c) =
    event_chunks (written_of s c) ++
    flat_map (λ d, frame (JSON_stringify d))
      (spec_received c (nextRes s) (bool_decide (c ∈ sseClients s)) evs).
Proof.
  intros Hwf Hex. rewrite trace_written by done.
  unfold event_chunks at 1. rewrite filter_app. f_equal.
  fold (event_chunks
          (spec_units c (nextRes s) (bool_decide (c ∈ sseClients s)) evs
           ≫= unit_chunks)).
  by rewrite event_chunks_units, spec_units_received.
Qed.
End Units.

Section Auxiliary.
Implicit Types (s : Server) (c r : ResId).

Lemma reachable_serving s :
  reachable s → exited s = None → listening s = true ∧ is_Some (upstream s).
Proof. intros Hr. apply (wf_serving s (reachable_wf s Hr)). Qed.

Lemma fresh_not_client s : wf s → nextRes s ∉ sseClients s.
Proof. intros Hwf Hin. apply (wf_clients s Hwf) in Hin. lia. Qed.

Lemma fresh_unwritten s : wf s → written_of s (nextRes s) = [].
Proof.
  intros Hwf. unfold written_of.
  destruct (responses s !! nextRes s) eqn:Hr; [|done].
  assert (nextRes s < nextRes s) by (apply (wf_heap s Hwf); by eexists). lia.
Qed.

Lemma run_replicate_TopicData evt n : ∀ s c,
  wf s → exited s = None → c ∈ sseClients s →
  c ∈ sseClients (run (replicate n (TopicData evt)) s) ∧
  length (queue_of (run (replicate n (TopicData evt)) s) c) =
    length (queue_of s c) + 2 * n.
Proof.
  induction n as [|n IH]; intros s c Hwf Hex Hc; simpl; [split; [done|lia]|].
  destruct (wf_serving s Hwf Hex) as [_ [u Hu]].
  assert (handle (TopicData evt) s = on_data evt s) as Hh
    by (unfold handle; by rewrite Hex, Hu).
  destruct (IH (handle (TopicData evt) s) c) as [H1 H2].
  - by apply wf_handle.
  - by rewrite exited_handle.
  - rewrite Hh. unfold on_data. by rewrite sseClients_broadcastEvent.
  - split; [done|]. rewrite H2, Hh. unfold on_data.
    rewrite queue_broadcastEvent by by apply wf_log. simpl.
    rewrite decide_True by done. rewrite length_app. simpl.
    change (queue_of (log Info [LText "topic received data"; LValue evt] s) c)
      with (queue_of s c). lia.
Qed.

Lemma run_exited evs s : exited s ≠ None → run evs s = s.
Proof.
  intros Hex. induction evs as [|ev evs IH]; simpl; [done|].
  assert (handle ev s = s) as -> by (unfold handle; by destruct (exited s)).
  exact IH.
Qed.

Lemma queue_ping s c :
  wf s → c ∈ sseClients s →
  queue_of (ping c s) c = queue_of s c ++ [ping_frame].
Proof.
  intros Hwf Hc. unfold ping.
  destruct (proj2 (wf_timers s Hwf c) Hc) as [p ->].
  destruct (heap_of_client s c Hwf Hc) as [x Hx].
  unfold queue_of, res_write; simpl. rewrite lookup_alter_eq, Hx. simpl.
  apply queue_write, (wf_flushed s Hwf c x Hx).
Qed.

Lemma ping_absent s r : wf s → r ∉ sseClients s → ping r s = s.
Proof.
  intros Hwf Hr. unfold ping.
  destruct (intervals s !! r) eqn:Hi; [|done].
  exfalso. apply Hr, (wf_timers s Hwf). by eexists.
Qed.
End Auxiliary.

Section ClientLemmas.
Variable JSON_parse : string → option Json.
Implicit Types (a : Client.App) (acts : list Client.Action).

Lemma take_cons_take {X} (n : nat) (x : X) (l : list X) :
  take n (x :: take n l) = take n (x :: l).
Proof.
  destruct n as [|n]; [done|]. simpl. f_equal.
  rewrite take_take. f_equal. lia.
Qed.

Lemma play_history acts : ∀ a h,
  Client.events a = take Client.KEEP h →
  Client.events (Client.play JSON_parse acts a) =
    take Client.KEEP (foldl (Client.record_action JSON_parse) h acts).
Proof.
  induction acts as [|act acts IH]; intros a h Ha; simpl; [done|].
  apply IH. destruct act; simpl; try done.
  unfold Client.onPlatformEvent.
  destruct (JSON_parse e_data); simpl; [|done].
  rewrite Ha. exact (take_cons_take Client.KEEP _ h).
Qed.
End ClientLemmas.

(** ** Properties of the specification *)

(** C1. Fan-out is point in time.  In every state the server can reach, one
    call of [broadcastEvent] adds exactly one frame of the event to the
    transcript of each response that is in [sseClients] at that moment and
    nothing to any other response.  Over a whole run, the event frames of a
    response are the frames of the events published between its attach and
    its close, in upstream order; a response attached after a prefix of the
    run holds no frame of an event of that prefix. *)
Theorem broadcast_point_in_time (env : Env) (evs : list Event) (c : ResId) :
  creds_missing env = false →
  let s := run evs (boot env Started) in
  (∀ evt, c ∈ sseClients s →
     written_of (broadcastEvent evt s) c =
       written_of s c ++ [event_line; data_line (JSON_stringify evt)]) ∧
  (∀ evt, c ∉ sseClients s →
     written_of (broadcastEvent evt s) c = written_of s c) ∧
  event_chunks (written_of s c) =
    flat_map (λ d, frame (JSON_stringify d)) (spec_received c 0 false evs) ∧
  (∀ post, c = nextRes s →
     event_chunks (written_of (run (GetEvents :: post) s) c) =
       flat_map (λ d, frame (JSON_stringify d)) (spec_received c (S c) true post)).
Proof.
  intros Hcreds s.
  assert (boot env Started = start env Started
            (log Info [LText "SF_LOGIN_URL: ";
                       LText (env_or "https://test.salesforce.com" (SF_LOGIN_URL env))]
               initial)) as Hboot by (unfold boot; by rewrite Hcreds).
  assert (wf s) as Hwf by apply wf_run, wf_boot.
  assert (exited s = None) as Hex.
  { subst s. rewrite exited_run, Hboot. done. }
  split_and!.
  - intros evt Hc. rewrite written_broadcastEvent by done.
    by rewrite decide_True by done.
  - intros evt Hc. rewrite written_broadcastEvent by done.
    rewrite decide_False by done. by rewrite app_nil_r.
  - subst s. rewrite trace_received; [|apply wf_boot|by rewrite Hboot].
    by rewrite Hboot.
  - intros post ->. rewrite trace_received by done.
    rewrite fresh_unwritten by done. simpl.
    rewrite bool_decide_eq_false_2 by by apply fresh_not_client.
    by rewrite bool_decide_eq_true_2 by done.
Qed.

Lemma broadcast_point_in_time_witness :
  creds_missing sample_env = false ∧
  event_chunks
    (written_of
       (run [TopicData (order_event 1); GetEvents; TopicData (order_event 2);
             GetEvents; PingFire 0; TopicData (order_event 3); ReqClose 0;
             TopicData (order_event 4)] serving) 0) =
    frame (JSON_stringify (order_event 2)) ++ frame (JSON_stringify (order_event 3)).
Proof.
  split; [reflexivity|].
  exact (proj1 (proj2 (proj2
    (broadcast_point_in_time sample_env
       [TopicData (order_event 1); GetEvents; TopicData (order_event 2);
        GetEvents; PingFire 0; TopicData (order_event 3); ReqClose 0;
        TopicData (order_event 4)] 0 eq_refl)))).
Defined.

(** C2, as stated, fails: with one response attached and never drained, two
    published events leave four chunks in its backlog; were the capacity
    four chunks, the next broadcast would have to evict it, yet it is still
    in [sseClients] afterwards and its backlog has grown to six. *)
Lemma stalled_consumer_not_evicted :
  let s := run [GetEvents; TopicData (order_event 1); TopicData (order_event 2)]
               serving in
  ¬ (4 ≤ length (queue_of s 0) →
     (0 ∉ sseClients (handle (TopicData (order_event 3)) s)) ∧
     length (queue_of (handle (TopicData (order_event 3)) s) 0) ≤ 4).
Proof.
  intros s H. destruct H as [Hout _]; [vm_compute; lia|].
  apply Hout. vm_compute. left.
Qed.

(** C2, amended.  [broadcastEvent] never evicts.  It leaves [sseClients] and
    the intervals as they are and puts the frame at the end of the backlog of
    every member, however long that backlog already is; a member leaves
    [sseClients] through its own close signal and through nothing else; so
    the backlog of a response that is never drained grows by two chunks with
    every published event, without bound. *)
Theorem broadcast_never_evicts (s : Server) (evt : Json) (c : ResId) :
  reachable s → exited s = None → c ∈ sseClients s →
  sseClients (broadcastEvent evt s) = sseClients s ∧
  intervals (broadcastEvent evt s) = intervals s ∧
  queue_of (broadcastEvent evt s) c = queue_of s c ++ frame (JSON_stringify evt) ∧
  (∀ ev, c ∉ sseClients (handle ev s) → ev = ReqClose c) ∧
  (∀ n, c ∈ sseClients (run (replicate n (TopicData evt)) s) ∧
        length (queue_of (run (replicate n (TopicData evt)) s) c) =
          length (queue_of s c) + 2 * n).
Proof.
  intros Hr Hex Hc. pose proof (reachable_wf s Hr) as Hwf.
  split_and!.
  - apply sseClients_broadcastEvent.
  - apply intervals_broadcastEvent.
  - rewrite queue_broadcastEvent by done. by rewrite decide_True by done.
  - intros ev. by apply client_removed.
  - intros n. by apply run_replicate_TopicData.
Qed.

Lemma broadcast_never_evicts_witness :
  0 ∈ sseClients (run (replicate 50 (TopicData (order_event 1)))
                      (run [GetEvents] serving)) ∧
  length (queue_of (run (replicate 50 (TopicData (order_event 1)))
                        (run [GetEvents] serving)) 0) =
    length (queue_of (run [GetEvents] serving) 0) + 2 * 50.
Proof.
  refine (proj2 (proj2 (proj2 (proj2
    (broadcast_never_evicts (run [GetEvents] serving) (order_event 1) 0 _ _ _))))
    50).
  - exists sample_env, Started, [GetEvents]. reflexivity.
  - reflexivity.
  - vm_compute. left.
Defined.

(** C4, as stated, fails: with all three credentials present, a rejected
    login makes the process exit. *)
Lemma exit_on_rejected_login :
  ¬ (exited (boot sample_env (LoginRejected (JStr "INVALID_LOGIN"))) ≠ None →
     creds_missing sample_env = true).
Proof. intros H. discriminate H. vm_compute. discriminate. Qed.

(** C4, amended.  The process exits, with code 1, only during startup: when
    a credential is missing, or when the [try] block of [start] fails (the
    login is rejected or a later statement throws).  The exit comes before
    [app.listen] has taken effect: the server is not listening, accepts
    nothing afterwards and has created no response.  After startup no event
    makes the process exit and every handler runs to its end; a failure stays
    where it happened: a transport failure or a subscription error changes
    nothing but the console, and the close of one response changes nothing
    for any other response nor for the subscription. *)
Theorem exit_only_during_startup
    (env : Env) (outcome : StartOutcome) (evs : list Event)
    (s : Server) (err : Json) (c c' : ResId) :
  (exited (boot env outcome) = Some 1%Z ↔
     creds_missing env = true ∨ outcome ≠ Started) ∧
  (exited (boot env outcome) = None ↔
     creds_missing env = false ∧ outcome = Started) ∧
  (exited (boot env outcome) ≠ None →
     listening (boot env outcome) = false ∧
     run evs (boot env outcome) = boot env outcome ∧
     responses (boot env outcome) = ∅) ∧
  exited (run evs (boot env outcome)) = exited (boot env outcome) ∧
  same_but_console s (handle (TransportFailure err) s) ∧
  same_but_console s (handle (SubscribeError err) s) ∧
  (c' ≠ c →
     (c' ∈ sseClients (handle (ReqClose c) s) ↔ c' ∈ sseClients s) ∧
     intervals (handle (ReqClose c) s) !! c' = intervals s !! c' ∧
     responses (handle (ReqClose c) s) = responses s ∧
     upstream (handle (ReqClose c) s) = upstream s).
Proof.
  split_and!.
  - unfold boot, start. destruct (creds_missing env), outcome; simpl;
      (split; [intros ?; try done; auto | intros [?|?]; done]).
  - unfold boot, start. destruct (creds_missing env), outcome; simpl;
      (split; [done | intros [? ?]; done]).
  - intros Hex. split_and!.
    + revert Hex. unfold boot, start.
      by destruct (creds_missing env), outcome.
    + by apply run_exited.
    + by destruct (wf_idle _ (wf_boot env outcome) Hex).
  - apply exited_run.
  - unfold handle. by destruct (exited s), (upstream s).
  - unfold handle, on_subscribe_error. by destruct (exited s), (upstream s).
  - intros Hne. unfold handle. destruct (exited s); [done|]. simpl.
    split_and!; try done.
    + rewrite elem_of_set_delete. tauto.
    + by rewrite lookup_delete_ne.
Qed.

Lemma exit_only_during_startup_witness :
  listening (boot sample_env (SetupThrew (JStr "ERR_SOCKET_BAD_PORT"))) = false ∧
  run [GetEvents; TopicData (order_event 1)]
      (boot sample_env (SetupThrew (JStr "ERR_SOCKET_BAD_PORT"))) =
    boot sample_env (SetupThrew (JStr "ERR_SOCKET_BAD_PORT")) ∧
  responses (boot sample_env (SetupThrew (JStr "ERR_SOCKET_BAD_PORT"))) = ∅.
Proof.
  refine (proj1 (proj2 (proj2
    (exit_only_during_startup sample_env (SetupThrew (JStr "ERR_SOCKET_BAD_PORT"))
       [GetEvents; TopicData (order_event 1)] serving JNull 0 1))) _).
  vm_compute. discriminate.
Defined.

(** C5. A response that cannot take the event costs the others nothing.
    The loop never looks at what [res.write] returns and has no exit, so
    whatever state the response object of [c] is in (any backlog, drained or
    not), every other member [c'] of [sseClients] gets exactly the frame of
    the event.  There is no capacity in the code, so the responses an event
    cannot reach are those gone from [sseClients]: such a response gets
    nothing and nothing is kept for it.  The subscription, the set of members
    and the process status are as before the broadcast. *)
Theorem undeliverable_is_isolated
    (s : Server) (evt : Json) (c c' : ResId) (x : Response) :
  reachable s → c' ∈ sseClients s → c' ≠ c →
  written_of (broadcastEvent evt (with_responses (<[c := x]> (responses s)) s)) c' =
    written_of s c' ++ frame (JSON_stringify evt) ∧
  (c ∉ sseClients s → written_of (broadcastEvent evt s) c = written_of s c) ∧
  upstream (broadcastEvent evt s) = upstream s ∧
  sseClients (broadcastEvent evt s) = sseClients s ∧
  exited (broadcastEvent evt s) = exited s.
Proof.
  intros Hr Hc' Hne. pose proof (reachable_wf s Hr) as Hwf.
  split_and!.
  - unfold written_of, broadcastEvent; simpl.
    rewrite loop_responses by apply (wf_nodup s Hwf). simpl.
    rewrite decide_True by done. rewrite lookup_insert_ne by done.
    destruct (heap_of_client s c' Hwf Hc') as [y ->]. simpl.
    by rewrite <- app_assoc.
  - intros Hc. rewrite written_broadcastEvent by done.
    rewrite decide_False by done. by rewrite app_nil_r.
  - apply upstream_broadcastEvent.
  - apply sseClients_broadcastEvent.
  - apply exited_broadcastEvent.
Qed.

Lemma undeliverable_is_isolated_witness :
  written_of
    (broadcastEvent (order_event 9)
       (with_responses
          (<[0 := mkResponse sse_headers true (replicate 1000 ping_frame) 0]>
             (responses (run [GetEvents; GetEvents] serving)))
          (run [GetEvents; GetEvents] serving))) 1 =
    written_of (run [GetEvents; GetEvents] serving) 1 ++
    frame (JSON_stringify (order_event 9)).
Proof.
  refine (proj1 (undeliverable_is_isolated (run [GetEvents; GetEvents] serving)
                   (order_event 9) 0 1 _ _ _ _)).
  - exists sample_env, Started, [GetEvents; GetEvents]. reflexivity.
  - vm_compute. right. left.
  - lia.
Defined.

(** C6, as stated, fails: a response that was sent an event after its last
    keep-alive, and still has that event in its backlog, is sent the next
    keep-alive frame all the same. *)
Lemma ping_despite_traffic :
  let s := run [GetEvents; PingFire 0; SocketDrain 0 1; TopicData (order_event 1)]
               serving in
  ¬ (queue_of s 0 ≠ [] →
     written_of (handle (PingFire 0) s) 0 = written_of s 0).
Proof.
  intros s H. assert (queue_of s 0 ≠ []) as Hq by (vm_compute; discriminate).
  specialize (H Hq). vm_compute in H. discriminate H.
Qed.

(** C6, amended.  Every attached response has an interval of 25000 ms, and
    each time it fires the server writes the frame [:ping] followed by an
    empty line, whatever was or was not sent since the last time; the
    interval of a response that is not attached never writes.  The frame is a
    comment in the framing of the stream: read by the browser it dispatches
    nothing, so the [platformEvent] listener hears exactly the relayed events
    and never a keep-alive. *)
Theorem heartbeat_every_tick (s : Server) (c : ResId) :
  reachable s → exited s = None → c ∈ sseClients s →
  intervals s !! c = Some 25000%Z ∧
  written_of (handle (PingFire c) s) c = written_of s c ++ [":ping" +:+ nl +:+ nl] ∧
  queue_of (handle (PingFire c) s) c = queue_of s c ++ [":ping" +:+ nl +:+ nl] ∧
  (∀ r, r ∉ sseClients s → handle (PingFire r) s = s) ∧
  (∀ out, EventSource.feed (EventSource.ready out) ping_frame =
          EventSource.ready out) ∧
  EventSource.read (written_of (handle (PingFire c) s) c) =
    EventSource.read (written_of s c) ∧
  (∀ env evs, s = run evs (boot env Started) →
     EventSource.heard "platformEvent" (EventSource.read (written_of s c)) =
       map JSON_stringify (spec_received c 0 false evs)).
Proof.
  intros Hr Hex Hc. pose proof (reachable_wf s Hr) as Hwf.
  assert (handle (PingFire c) s = ping c s) as Hh
    by (unfold handle; by rewrite Hex).
  assert (written_of (ping c s) c = written_of s c ++ [ping_frame]) as Hw.
  { rewrite written_ping by done. by rewrite decide_True by done. }
  split_and!.
  - destruct (proj2 (wf_timers s Hwf c) Hc) as [p Hp].
    by rewrite Hp, (wf_period s Hwf c p Hp).
  - by rewrite Hh, Hw.
  - rewrite Hh. by apply queue_ping.
  - intros r Hr'. unfold handle. rewrite Hex. by apply ping_absent.
  - apply read_ping.
  - rewrite Hh, Hw. destruct (reachable_units s c Hr Hex) as [us ->].
    unfold EventSource.read. rewrite foldl_app, !read_units.
    cbn [foldl]. apply read_ping.
  - intros env evs ->. rewrite exited_run in Hex.
    rewrite trace_written; [|apply wf_boot|done].
    assert (boot env Started = start env Started
              (log Info [LText "SF_LOGIN_URL: ";
                         LText (env_or "https://test.salesforce.com"
                                       (SF_LOGIN_URL env))] initial)) as Hboot.
    { revert Hex. unfold boot. by destruct (creds_missing env). }
    rewrite Hboot. cbn [app].
    change (written_of (start env Started _) c) with (@nil string).
    cbn [app]. unfold EventSource.read. rewrite read_units.
    cbn [app]. rewrite heard_platform. f_equal. apply spec_units_received.
Qed.

Lemma heartbeat_every_tick_witness :
  written_of
    (handle (PingFire 0) (run [GetEvents; TopicData (order_event 1)] serving)) 0 =
    written_of (run [GetEvents; TopicData (order_event 1)] serving) 0 ++
    [":ping" +:+ nl +:+ nl].
Proof.
  refine (proj1 (proj2 (heartbeat_every_tick
    (run [GetEvents; TopicData (order_event 1)] serving) 0 _ _ _))).
  - exists sample_env, Started, [GetEvents; TopicData (order_event 1)]. reflexivity.
  - reflexivity.
  - vm_compute. left.
Defined.

(** C7. For every message the subscription callback receives, each response
    in [sseClients] gets one frame: the line naming the event
    [platformEvent], then one [data:] line holding [JSON.stringify] of the
    message as received, closed by an empty line.  The serialisation holds no
    line break, so the frame ends exactly at that empty line.  Nothing is
    filtered or rewritten: a message received twice is written twice, and a
    message in the envelope shape is written with its four fields in place.
    Read by the browser, the frame is one event named [platformEvent] whose
    data is that serialisation. *)
Theorem relay_frame_format (s : Server) (data : Json) (c : ResId) :
  reachable s → exited s = None → c ∈ sseClients s →
  written_of (handle (TopicData data) s) c =
    written_of s c ++
    ["event: platformEvent" +:+ nl; "data: " +:+ JSON_stringify data +:+ nl +:+ nl] ∧
  all_printable (JSON_stringify data) = true ∧
  written_of (run [TopicData data; TopicData data] s) c =
    written_of s c ++ frame (JSON_stringify data) ++ frame (JSON_stringify data) ∧
  (∀ ch p rid cd sch,
     data = JObj [("channel", ch); ("payload", p);
                  ("event", JObj [("replayId", rid); ("createdDate", cd)]);
                  ("schema", sch)] →
     JSON_stringify data =
       "{" +:+
       ((Js.quote "channel" +:+ ":" +:+ JSON_stringify ch) +:+ "," +:+
        (Js.quote "payload" +:+ ":" +:+ JSON_stringify p) +:+ "," +:+
        (Js.quote "event" +:+ ":" +:+
           "{" +:+
           ((Js.quote "replayId" +:+ ":" +:+ JSON_stringify rid) +:+ "," +:+
            (Js.quote "createdDate" +:+ ":" +:+ JSON_stringify cd)) +:+ "}")
        +:+ "," +:+
        (Js.quote "schema" +:+ ":" +:+ JSON_stringify sch)) +:+ "}") ∧
  (∀ out,
     foldl EventSource.feed (EventSource.ready out)
           [event_line; data_line (JSON_stringify data)] =
       EventSource.ready (out ++ [("platformEvent", JSON_stringify data)])).
Proof.
  intros Hr Hex Hc.
  pose proof (reachable_wf s Hr) as Hwf.
  destruct (reachable_serving s Hr Hex) as [_ [u Hu]].
  assert (∀ s', wf s' → exited s' = None → is_Some (upstream s') →
            c ∈ sseClients s' →
            written_of (handle (TopicData data) s') c =
              written_of s' c ++ frame (JSON_stringify data) ∧
            c ∈ sseClients (handle (TopicData data) s')) as Hstep.
  { intros s' Hwf' Hex' [u' Hu'] Hc'. unfold handle. rewrite Hex', Hu'.
    unfold on_data. rewrite written_broadcastEvent by by apply wf_log.
    rewrite sseClients_broadcastEvent. simpl.
    by rewrite decide_True by done. }
  destruct (Hstep s Hwf Hex (ex_intro _ u Hu) Hc) as [H1 Hc1].
  split_and!.
  - exact H1.
  - apply all_printable_stringify.
  - simpl.
    destruct (Hstep (handle (TopicData data) s)) as [H2 _];
      [by apply wf_handle | by rewrite exited_handle
      | by rewrite upstream_handle, Hu | done |].
    by rewrite H2, H1, <- app_assoc.
  - intros ch p rid cd sch ->. reflexivity.
  - intros out. apply read_frame.
Qed.

Lemma relay_frame_format_witness :
  written_of (handle (TopicData (order_event 7)) (run [GetEvents] serving)) 0 =
    written_of (run [GetEvents] serving) 0 ++
    ["event: platformEvent" +:+ nl;
     "data: " +:+ JSON_stringify (order_event 7) +:+ nl +:+ nl].
Proof.
  refine (proj1 (relay_frame_format (run [GetEvents] serving) (order_event 7) 0 _ _ _)).
  - exists sample_env, Started, [GetEvents]. reflexivity.
  - reflexivity.
  - vm_compute. left.
Defined.

(** The sample event, relayed to one attached response, read by the browser
    and parsed, comes out as it went in. *)
Example relay_round_trip_sample :
  map JsonText.parse
      (EventSource.heard "platformEvent"
         (EventSource.read
            (written_of
               (run [GetEvents; PingFire 0; TopicData (order_event 1); PingFire 0]
                    serving) 0))) =
    [Some (order_event 1)].
Proof. vm_compute. reflexivity. Qed.

(** C8. The close handler is idempotent and final.  Running it for a
    response that is not in [sseClients] changes nothing and is no error;
    running it twice is the same as running it once; right after it the
    response is out of [sseClients] and has no interval; and whatever happens
    later, a closed response never returns to [sseClients] and is never
    written to again. *)
Theorem detach_idempotent_and_final (s : Server) (c : ResId) (evs : list Event) :
  reachable s →
  (c ∉ sseClients s → handle (ReqClose c) s = s) ∧
  handle (ReqClose c) (handle (ReqClose c) s) = handle (ReqClose c) s ∧
  exited (handle (ReqClose c) s) = exited s ∧
  (c ∉ sseClients (handle (ReqClose c) s)) ∧
  intervals (handle (ReqClose c) s) !! c = None ∧
  ((c < nextRes s) →
   (c ∉ sseClients (run evs (handle (ReqClose c) s))) ∧
   written_of (run evs (handle (ReqClose c) s)) c = written_of s c).
Proof.
  intros Hr. pose proof (reachable_wf s Hr) as Hwf.
  assert (∀ s', wf s' → c ∉ sseClients s' → handle (ReqClose c) s' = s') as Hnoop.
  { intros s' Hwf' Hc. unfold handle. destruct (exited s'); [done|].
    apply on_close_absent; [done|].
    destruct (intervals s' !! c) eqn:Hi; [|done].
    exfalso. apply Hc, (wf_timers s' Hwf'). by eexists. }
  assert (c ∉ sseClients (handle (ReqClose c) s)) as Hgone.
  { rewrite sseClients_handle. destruct (exited s) eqn:Hex.
    - destruct (wf_idle s Hwf) as [-> _]; [by rewrite Hex|]. apply not_elem_of_nil.
    - rewrite elem_of_set_delete. tauto. }
  split_and!.
  - by apply Hnoop.
  - apply Hnoop; [by apply wf_handle | done].
  - apply exited_handle.
  - done.
  - destruct (intervals (handle (ReqClose c) s) !! c) eqn:Hi; [|done].
    exfalso. apply Hgone, (wf_timers _ (wf_handle (ReqClose c) s Hwf)).
    by eexists.
  - intros Hlt.
    destruct (closed_stays_closed evs (handle (ReqClose c) s) c) as [H1 H2].
    + by apply wf_handle.
    + rewrite nextRes_handle. by destruct (exited s).
    + done.
    + split; [done|]. rewrite H2. unfold handle.
      by destruct (exited s).
Qed.

Lemma detach_idempotent_and_final_witness :
  (0 ∉ sseClients
         (run [TopicData (order_event 2); GetEvents; PingFire 0]
            (handle (ReqClose 0) (run [GetEvents; TopicData (order_event 1)] serving)))) ∧
  written_of
    (run [TopicData (order_event 2); GetEvents; PingFire 0]
       (handle (ReqClose 0) (run [GetEvents; TopicData (order_event 1)] serving))) 0 =
    written_of (run [GetEvents; TopicData (order_event 1)] serving) 0.
Proof.
  refine (proj2 (proj2 (proj2 (proj2 (proj2
    (detach_idempotent_and_final
       (run [GetEvents; TopicData (order_event 1)] serving) 0
       [TopicData (order_event 2); GetEvents; PingFire 0] _))))) _).
  - exists sample_env, Started, [GetEvents; TopicData (order_event 1)]. reflexivity.
  - vm_compute. lia.
Defined.

(** C9. The list the client shows never holds more than 200 entries: after
    any run of the client from its first render, it is the first 200 entries
    of the newest-first list of everything received since the list was last
    cleared, and each well-formed frame puts its entry at the head. *)
Theorem events_bounded_newest_first
    (JSON_parse : string → option Json) (acts : list Client.Action)
    (a : Client.App) (d u : string) :
  length (Client.events (Client.play JSON_parse acts Client.init)) ≤ 200 ∧
  Client.events (Client.play JSON_parse acts Client.init) =
    take 200 (Client.history JSON_parse acts) ∧
  Client.events (Client.dispatch JSON_parse (Client.PlatformEvent d u) a) =
    match JSON_parse d with
    | Some message => take 200 (Client.entry_of message u :: Client.events a)
    | None => Client.events a
    end.
Proof.
  assert (Client.events (Client.play JSON_parse acts Client.init) =
            take 200 (Client.history JSON_parse acts)) as Hh
    by by apply play_history.
  split_and!.
  - rewrite Hh, length_take. lia.
  - exact Hh.
  - simpl. unfold Client.onPlatformEvent. by destruct (JSON_parse d).
Qed.

(** C10. A frame whose data does not parse changes nothing the client shows:
    the list of events, the connection flag and the filter are all as before,
    and the error is caught and logged. *)
Theorem bad_frame_leaves_events
    (JSON_parse : string → option Json) (d u : string) (a : Client.App) :
  JSON_parse d = None →
  Client.events (Client.onPlatformEvent JSON_parse d u a) = Client.events a ∧
  Client.connected (Client.onPlatformEvent JSON_parse d u a) = Client.connected a ∧
  Client.filter (Client.onPlatformEvent JSON_parse d u a) = Client.filter a ∧
  Client.errors (Client.onPlatformEvent JSON_parse d u a) =
    Client.errors a ++ ["Bad event payload"].
Proof.
  intros Hd. unfold Client.onPlatformEvent. by rewrite Hd.
Qed.

Lemma bad_frame_leaves_events_witness :
  JsonText.parse bad_data = None ∧
  Client.events
    (Client.onPlatformEvent JsonText.parse bad_data "7f0c"
       (Client.play JsonText.parse [Client.PlatformEvent good_data "1a2b"]
          Client.init)) =
    Client.events
      (Client.play JsonText.parse [Client.PlatformEvent good_data "1a2b"]
         Client.init).
Proof.
  split; [reflexivity|].
  exact (proj1 (bad_frame_leaves_events JsonText.parse bad_data "7f0c"
                  (Client.play JsonText.parse [Client.PlatformEvent good_data "1a2b"]
                     Client.init) eq_refl)).
Defined.

(** ** Further properties of the code *)

Example filtered_sample :
  map Client.id (View.filtered View.ascii_lower (sample_app "TOTAL")) =
    [JNum 3; JNum 1] ∧
  map Client.id (View.filtered View.ascii_lower (sample_app "gadget")) =
    [JStr "u2"] ∧
  View.filtered View.ascii_lower (sample_app "nothing") = [] ∧
  View.filtered View.ascii_lower (sample_app EmptyString) =
    Client.events (sample_app EmptyString).
Proof. by vm_compute. Qed.

Section ViewLemmas.
Import View.
Implicit Types (s p q : string).

Lemma starts_with_spec p s : starts_with p s = true ↔ ∃ b, s = p +:+ b.
Proof.
  revert s. induction p as [|a p IH]; intros s.
  - split; [intros _; by exists s | done].
  - destruct s as [|c s].
    + split; [done | intros [b Hb]; discriminate Hb].
    + cbn [starts_with]. rewrite andb_true_iff, IH. split.
      * intros [Hac [b ->]]. apply Ascii.eqb_eq in Hac as ->. by exists b.
      * intros [b Hb]. rewrite string_app_cons in Hb. injection Hb as -> ->.
        split; [apply Ascii.eqb_refl | by exists b].
Qed.

Lemma includes_spec s p : includes s p = true ↔ ∃ a b, s = a +:+ p +:+ b.
Proof.
  induction s as [|c s IH].
  - cbn [includes]. rewrite orb_false_r, starts_with_spec. split.
    + intros [b Hb]. by exists EmptyString, b.
    + intros (a & b & Hab). destruct a; [by exists b | discriminate Hab].
  - cbn [includes]. rewrite orb_true_iff, starts_with_spec, IH. split.
    + intros [[b Hb] | (a & b & ->)].
      * by exists EmptyString, b.
      * by exists (String c a), b.
    + intros (a & b & Hab). destruct a as [|c' a].
      * left. by exists b.
      * right. rewrite string_app_cons in Hab. injection Hab as -> ->.
        by exists a, b.
Qed.

Lemma includes_trans s p q :
  includes s p = true → includes p q = true → includes s q = true.
Proof.
  rewrite !includes_spec. intros (a & b & ->) (a' & b' & ->).
  exists (a +:+ a'), (b' +:+ b). by rewrite !string_app_assoc.
Qed.

Lemma includes_empty s : includes s EmptyString = true.
Proof. by destruct s. Qed.

Lemma lower_char_idemp (c : ascii) : lower_char (lower_char c) = lower_char c.
Proof. destruct c as [[] [] [] [] [] [] [] []]; reflexivity. Qed.

Lemma ascii_lower_idemp s : ascii_lower (ascii_lower s) = ascii_lower s.
Proof.
  induction s as [|c s IH]; [done|]. cbn [ascii_lower].
  by rewrite lower_char_idemp, IH.
Qed.

Lemma ascii_lower_empty s : ascii_lower s = EmptyString ↔ s = EmptyString.
Proof. by destruct s. Qed.

Lemma filter_weaken {X} (P Q : X → Prop)
    `{!∀ x, Decision (P x)} `{!∀ x, Decision (Q x)} (l : list X) :
  (∀ x, P x → Q x) → filter P l `sublist_of` filter Q l.
Proof.
  intros HPQ. induction l as [|x l IH]; [done|].
  rewrite !filter_cons. destruct (decide (P x)) as [HP|HP].
  - rewrite decide_True by auto. by apply sublist_skip.
  - destruct (decide (Q x)); [by apply sublist_cons | done].
Qed.
End ViewLemmas.

(** X1. The filtered view never invents or reorders entries: whatever the
    filter, it is a sublist of the events held, in the same order; with an
    empty filter it is the whole list; so after any run of the client it
    shows at most 200 entries. *)
Theorem filtered_within_events
    (toLowerCase : string → string) (JSON_parse : string → option Json)
    (a : Client.App) (acts : list Client.Action)
    (c : bool) (evs : list Client.Entry) (errs : list string) :
  View.filtered toLowerCase a `sublist_of` Client.events a ∧
  View.filtered toLowerCase (Client.mkApp c evs EmptyString errs) = evs ∧
  length (View.filtered toLowerCase (Client.play JSON_parse acts Client.init)) ≤ 200.
Proof.
  assert (∀ b, View.filtered toLowerCase b `sublist_of` Client.events b) as Hsub.
  { intros b. unfold View.filtered. destruct (Client.filter b); [done|].
    apply sublist_filter. }
  split_and!; [apply Hsub | done |].
  etrans; [apply sublist_length, Hsub|].
  rewrite (play_history JSON_parse acts Client.init []) by done.
  rewrite length_take. unfold Client.KEEP. lia.
Qed.

(** X2. With a filter typed in, an entry is shown exactly when it is held
    and the lower-cased filter occurs, as a run of consecutive characters,
    in the lower-cased [JSON.stringify] of its payload. *)
Theorem filtered_shows_matches
    (toLowerCase : string → string) (a : Client.App) (e : Client.Entry) :
  Client.filter a ≠ EmptyString →
  (e ∈ View.filtered toLowerCase a ↔
   e ∈ Client.events a ∧
   ∃ x y, toLowerCase (JSON_stringify (Client.payload e)) =
            x +:+ toLowerCase (Client.filter a) +:+ y).
Proof.
  intros Hf. unfold View.filtered.
  destruct (Client.filter a) as [|ch f] eqn:Hfa; [done|].
  rewrite list_elem_of_filter. unfold View.matches. rewrite includes_spec.
  tauto.
Qed.

Lemma filtered_shows_matches_witness :
  Client.entry_of (cometd_message 3) "u3" ∈
    View.filtered View.ascii_lower (sample_app "Total") ↔
  Client.entry_of (cometd_message 3) "u3" ∈ Client.events (sample_app "Total") ∧
  ∃ x y,
    View.ascii_lower
      (JSON_stringify (Client.payload (Client.entry_of (cometd_message 3) "u3"))) =
      x +:+ View.ascii_lower (Client.filter (sample_app "Total")) +:+ y.
Proof.
  apply (filtered_shows_matches View.ascii_lower (sample_app "Total")
           (Client.entry_of (cometd_message 3) "u3")).
  discriminate.
Defined.

(** X3. The filter ignores case: for a [toLowerCase] that is idempotent and
    maps exactly the empty string to the empty string, typing the filter in
    lower case shows the same entries as typing it as it is. *)
Theorem filtered_ignores_case
    (toLowerCase : string → string)
    (c : bool) (evs : list Client.Entry) (f : string) (errs : list string) :
  (∀ s, toLowerCase (toLowerCase s) = toLowerCase s) →
  (∀ s, toLowerCase s = EmptyString ↔ s = EmptyString) →
  View.filtered toLowerCase (Client.mkApp c evs (toLowerCase f) errs) =
    View.filtered toLowerCase (Client.mkApp c evs f errs).
Proof.
  intros Hidem Hempty. unfold View.filtered. cbn [Client.filter Client.events].
  destruct f as [|ch f].
  - by rewrite (proj2 (Hempty EmptyString) eq_refl).
  - destruct (toLowerCase (String ch f)) as [|ch' f'] eqn:Hl.
    + apply (proj1 (Hempty _)) in Hl. discriminate Hl.
    + rewrite <- Hl. unfold View.matches. by rewrite Hidem.
Qed.

Lemma filtered_ignores_case_witness :
  View.filtered View.ascii_lower
    (Client.mkApp true (Client.events (sample_app EmptyString))
                  (View.ascii_lower "GadGet") []) =
    View.filtered View.ascii_lower
      (Client.mkApp true (Client.events (sample_app EmptyString)) "GadGet" []).
Proof.
  apply (filtered_ignores_case View.ascii_lower true
           (Client.events (sample_app EmptyString)) "GadGet" []).
  - apply ascii_lower_idemp.
  - apply ascii_lower_empty.
Defined.

(** X4. Narrowing the filter never brings an entry back: when the
    lower-cased filter [f1] occurs in the lower-cased, non-empty filter [f2],
    everything shown under [f2] is shown under [f1], in the same order. *)
Theorem filtered_narrowing
    (toLowerCase : string → string)
    (c : bool) (evs : list Client.Entry) (f1 f2 : string) (errs : list string) :
  f2 ≠ EmptyString →
  View.includes (toLowerCase f2) (toLowerCase f1) = true →
  View.filtered toLowerCase (Client.mkApp c evs f2 errs) `sublist_of`
    View.filtered toLowerCase (Client.mkApp c evs f1 errs).
Proof.
  intros Hf2 Hinc. unfold View.filtered. cbn [Client.filter Client.events].
  destruct f2 as [|c2 f2]; [done|]. destruct f1 as [|c1 f1].
  - apply sublist_filter.
  - apply filter_weaken. intros e. unfold View.matches. intros He.
    by apply (includes_trans _ _ _ He).
Qed.

Lemma filtered_narrowing_witness :
  View.filtered View.ascii_lower
    (Client.mkApp true (Client.events (sample_app EmptyString)) "Total" [])
  `sublist_of`
  View.filtered View.ascii_lower
    (Client.mkApp true (Client.events (sample_app EmptyString)) "ota" []).
Proof.
  apply (filtered_narrowing View.ascii_lower true
           (Client.events (sample_app EmptyString)) "ota" "Total" []).
  - discriminate.
  - reflexivity.
Defined.

Section RegistryLemmas.
Implicit Types (s : Server) (c r : ResId) (l : list ResId).

Lemma sorted_set_delete x l :
  StronglySorted lt l → StronglySorted lt (set_delete x l).
Proof.
  unfold set_delete. induction l as [|y l IH]; intros Hl; [done|].
  apply StronglySorted_cons in Hl as [Hy Hl]. rewrite filter_cons.
  case_decide; [|by apply IH].
  apply StronglySorted_cons. split; [|by apply IH].
  apply Forall_forall. intros z [_ Hz]%list_elem_of_filter.
  by apply (proj1 (Forall_forall _ _) Hy).
Qed.

Lemma sorted_set_add_fresh x l :
  (∀ y, y ∈ l → y < x) → StronglySorted lt l → StronglySorted lt (set_add x l).
Proof.
  intros Hx Hl. unfold set_add. case_decide; [done|].
  apply StronglySorted_app. split_and!; [|done|].
  - intros y z Hy ->%list_elem_of_singleton. by apply Hx.
  - apply StronglySorted_cons. split; [by apply Forall_nil | constructor].
Qed.

Lemma sorted_handle ev s :
  wf s → StronglySorted lt (sseClients s) →
  StronglySorted lt (sseClients (handle ev s)).
Proof.
  intros Hwf Hs. rewrite sseClients_handle.
  destruct (exited s); [done|]. destruct ev; try done.
  - destruct (listening s); [|done].
    apply sorted_set_add_fresh; [apply (wf_clients s Hwf) | done].
  - by apply sorted_set_delete.
Qed.

Lemma sorted_run evs : ∀ s,
  wf s → StronglySorted lt (sseClients s) →
  StronglySorted lt (sseClients (run evs s)).
Proof.
  induction evs as [|ev evs IH]; intros s Hwf Hs; [done|].
  apply IH; [by apply wf_handle | by apply sorted_handle].
Qed.

Lemma sseClients_boot env outcome : sseClients (boot env outcome) = [].
Proof. unfold boot, start. by destruct (creds_missing env), outcome. Qed.

Lemma responses_boot env outcome : responses (boot env outcome) = ∅.
Proof. unfold boot, start. by destruct (creds_missing env), outcome. Qed.

Lemma nextRes_boot env outcome : nextRes (boot env outcome) = 0.
Proof. unfold boot, start. by destruct (creds_missing env), outcome. Qed.

(** What holds of every response object is kept by every handler, if each
    write and each drain keeps it. *)
Lemma responses_handle (P : Response → Prop) ev s :
  wf s →
  P (mkResponse sse_headers true [] 0) →
  (∀ chunk x, P x → P (write_chunk chunk x)) →
  (∀ n x, P x → P (take_chunks n x)) →
  (∀ c x, responses s !! c = Some x → P x) →
  ∀ c x, responses (handle ev s) !! c = Some x → P x.
Proof.
  intros Hwf Hnew Hw Ht HP c x. unfold handle.
  destruct (exited s); [apply HP|].
  assert (∀ f r, (∀ y, P y → P (f y)) →
            alter f r (responses s) !! c = Some x → P x) as Halter.
  { intros f r Hf. rewrite lookup_alter. case_decide; [subst|apply HP].
    destruct (responses s !! c) as [y|] eqn:Hy; [|done].
    intros [= <-]. by apply Hf, (HP c). }
  destruct ev; simpl; try apply HP.
  - destruct (listening s); [|apply HP]. unfold get_events; simpl.
    destruct (decide (c = nextRes s)) as [->|Hne].
    + rewrite lookup_insert_eq. by intros [= <-].
    + rewrite lookup_insert_ne by done. apply HP.
  - unfold ping. destruct (intervals s !! res); [|apply HP].
    apply Halter, Hw.
  - apply Halter, Ht.
  - destruct (upstream s); [|apply HP]. unfold on_data, broadcastEvent.
    rewrite loop_responses by apply (wf_nodup s Hwf). simpl.
    case_decide; [|apply HP].
    destruct (responses s !! c) as [y|] eqn:Hy; [|done].
    intros [= <-]. unfold write_frame. by apply Hw, Hw, (HP c).
  - unfold on_subscribed. destruct (upstream s); apply HP.
  - unfold on_subscribe_error. destruct (upstream s); apply HP.
  - destruct (upstream s); apply HP.
Qed.

Lemma responses_run (P : Response → Prop) evs : ∀ s,
  wf s →
  P (mkResponse sse_headers true [] 0) →
  (∀ chunk x, P x → P (write_chunk chunk x)) →
  (∀ n x, P x → P (take_chunks n x)) →
  (∀ c x, responses s !! c = Some x → P x) →
  ∀ c x, responses (run evs s) !! c = Some x → P x.
Proof.
  induction evs as [|ev evs IH]; intros s Hwf Hnew Hw Ht HP; [done|].
  apply IH; [by apply wf_handle | done..|].
  by apply responses_handle.
Qed.
End RegistryLemmas.

(** X5. In every state the server can reach, the set of attached responses
    and the table of keep-alive intervals agree: the responses are listed
    once each, in the order they attached; a response has a live interval
    exactly when it is attached, so there are as many intervals as attached
    responses and none is left behind by a close; and every attached response
    object exists. *)
Theorem registry_and_timers_agree (s : Server) (c : ResId) :
  reachable s →
  StronglySorted lt (sseClients s) ∧
  NoDup (sseClients s) ∧
  (is_Some (intervals s !! c) ↔ c ∈ sseClients s) ∧
  size (intervals s) = length (sseClients s) ∧
  (c ∈ sseClients s → is_Some (responses s !! c)).
Proof.
  intros Hr. pose proof (reachable_wf s Hr) as Hwf.
  split_and!.
  - destruct Hr as (env & outcome & evs & ->).
    apply sorted_run; [apply wf_boot|]. rewrite sseClients_boot. constructor.
  - apply (wf_nodup s Hwf).
  - apply (wf_timers s Hwf).
  - rewrite <- size_dom, <- (size_list_to_set (C:=gset ResId)) by apply (wf_nodup s Hwf).
    f_equal. apply set_eq. intros x.
    rewrite elem_of_dom, elem_of_list_to_set. apply (wf_timers s Hwf).
  - by apply heap_of_client.
Qed.

Lemma registry_and_timers_agree_witness :
  size (intervals (run [GetEvents; GetEvents; ReqClose 0; GetEvents] serving)) =
    length (sseClients (run [GetEvents; GetEvents; ReqClose 0; GetEvents] serving)).
Proof.
  refine (proj1 (proj2 (proj2 (proj2
    (registry_and_timers_agree
       (run [GetEvents; GetEvents; ReqClose 0; GetEvents] serving) 1 _))))).
  exists sample_env, Started, [GetEvents; GetEvents; ReqClose 0; GetEvents].
  reflexivity.
Defined.

(** X6. Every response object the server holds was given the four
    server-sent-events headers, flushed, before anything was written to it,
    and no later write or drain changes them. *)
Theorem responses_carry_sse_headers (s : Server) (c : ResId) (x : Response) :
  reachable s → responses s !! c = Some x →
  headers x =
    [("Content-Type", "text/event-stream"); ("Cache-Control", "no-cache");
     ("Connection", "keep-alive"); ("X-Accel-Buffering", "no")] ∧
  headersFlushed x = true.
Proof.
  intros (env & outcome & evs & ->).
  apply (responses_run (λ x, headers x = sse_headers ∧ headersFlushed x = true));
    [apply wf_boot | done..|].
  intros c' x'. by rewrite responses_boot, lookup_empty.
Qed.

Lemma responses_carry_sse_headers_witness :
  ∃ x, responses (run [GetEvents; TopicData (order_event 1); SocketDrain 0 1]
                      serving) !! 0 = Some x ∧
       headers x = sse_headers ∧ headersFlushed x = true.
Proof.
  eexists. split; [vm_compute; reflexivity|].
  refine (responses_carry_sse_headers
            (run [GetEvents; TopicData (order_event 1); SocketDrain 0 1] serving)
            0 _ _ _).
  - exists sample_env, Started,
      [GetEvents; TopicData (order_event 1); SocketDrain 0 1]. reflexivity.
  - vm_compute. reflexivity.
Defined.

(** X7. The body of a response is made of whole frames: in every reachable
    state it is a sequence of event frames (the [event:] line directly
    followed by its [data:] line) and keep-alive frames, so a keep-alive
    never falls inside an event frame; read by the browser it leaves no event
    half read and dispatches [platformEvent] events only. *)
Theorem body_is_whole_frames (s : Server) (c : ResId) :
  reachable s →
  ∃ us : list (option Json),
    written_of s c = us ≫= unit_chunks ∧
    EventSource.read (written_of s c) =
      EventSource.ready
        (map (λ d, ("platformEvent", JSON_stringify d)) (omap id us)).
Proof.
  intros Hr. destruct (exited s) eqn:Hex.
  - exists []. pose proof (reachable_wf s Hr) as Hwf.
    destruct (wf_idle s Hwf) as [_ Hresp]; [by rewrite Hex|].
    unfold written_of. by rewrite Hresp, lookup_empty.
  - destruct (reachable_units s c Hr Hex) as [us Hus]. exists us.
    split; [done|]. rewrite Hus. unfold EventSource.read.
    by rewrite read_units.
Qed.

Lemma body_is_whole_frames_witness :
  ∃ us : list (option Json),
    written_of (run [GetEvents; PingFire 0; TopicData (JNum 5)] serving) 0 =
      us ≫= unit_chunks ∧
    EventSource.read
      (written_of (run [GetEvents; PingFire 0; TopicData (JNum 5)] serving) 0) =
      EventSource.ready
        (map (λ d, ("platformEvent", JSON_stringify d)) (omap id us)).
Proof.
  apply (body_is_whole_frames
           (run [GetEvents; PingFire 0; TopicData (JNum 5)] serving) 0).
  exists sample_env, Started, [GetEvents; PingFire 0; TopicData (JNum 5)].
  reflexivity.
Defined.

(** X8. A response body is append-only: whatever happens next (broadcasts,
    keep-alives, drains, the close of the response, other requests), what was
    written to a response stays at the head of what is written to it. *)
Theorem body_is_append_only (s : Server) (evs : list Event) (c : ResId) :
  reachable s →
  written_of s c `prefix_of` written_of (run evs s) c.
Proof.
  intros Hr. pose proof (reachable_wf s Hr) as Hwf.
  destruct (exited s) eqn:Hex.
  - by rewrite run_exited by by rewrite Hex.
  - rewrite trace_written by done. by apply prefix_app_r.
Qed.

Lemma body_is_append_only_witness :
  written_of (run [GetEvents; TopicData (JNum 5)] serving) 0 `prefix_of`
  written_of (run [PingFire 0; ReqClose 0; TopicData (JNum 6); GetEvents]
                  (run [GetEvents; TopicData (JNum 5)] serving)) 0.
Proof.
  apply (body_is_append_only (run [GetEvents; TopicData (JNum 5)] serving)
           [PingFire 0; ReqClose 0; TopicData (JNum 6); GetEvents] 0).
  exists sample_env, Started, [GetEvents; TopicData (JNum 5)]. reflexivity.
Defined.

Section AttachLemmas.
Implicit Types (s : Server) (c : ResId) (evs pre post : list Event).

Lemma nextRes_run evs : ∀ s,
  wf s → exited s = None → nextRes (run evs s) = nextRes s + attaches evs.
Proof.
  induction evs as [|ev evs IH]; intros s Hwf Hex; simpl; [lia|].
  rewrite IH; [|by apply wf_handle|by rewrite exited_handle].
  rewrite nextRes_handle, Hex.
  destruct (wf_serving s Hwf Hex) as [-> _]. destruct ev; lia.
Qed.

Lemma snoc_split pre post evs (ev : Event) :
  pre ++ GetEvents :: post = evs ++ [ev] ↔
  (post = [] ∧ pre = evs ∧ ev = GetEvents) ∨
  (∃ post', post = post' ++ [ev] ∧ evs = pre ++ GetEvents :: post').
Proof.
  split.
  - destruct post as [|p post _] using rev_ind.
    + intros [-> ->]%app_inj_tail. by left.
    + change (pre ++ GetEvents :: post ++ [p])
        with (pre ++ (GetEvents :: post) ++ [p]).
      rewrite app_assoc. intros [<- ->]%app_inj_tail. right. by exists post.
  - intros [(-> & -> & ->) | (post' & -> & ->)]; [done|].
    by rewrite <- app_assoc.
Qed.

Lemma closes_snoc c post (ev : Event) :
  closes c (post ++ [ev]) ↔ closes c post ∨ ev = ReqClose c.
Proof.
  unfold closes. rewrite elem_of_app, list_elem_of_singleton.
  split; intros [?|?]; auto.
Qed.
End AttachLemmas.

(** X9. Who is attached can be read off the trace: after any run of a
    started server, response [c] is in [sseClients] exactly when the trace
    holds the [/events] request of rank [c] and no close of [c] after it. *)
Theorem attached_iff_opened_and_not_closed (env : Env) (evs : list Event) (c : ResId) :
  creds_missing env = false →
  (c ∈ sseClients (run evs (boot env Started)) ↔
   ∃ pre post, evs = pre ++ GetEvents :: post ∧ attaches pre = c ∧ ¬ closes c post).
Proof.
  intros Hcreds.
  assert (exited (boot env Started) = None) as Hex0
    by (unfold boot; by rewrite Hcreds).
  induction evs as [|ev evs IH] using rev_ind.
  - simpl. rewrite sseClients_boot. split; [by intros ?%elem_of_nil|].
    intros (pre & post & Hnil & _). by destruct pre.
  - unfold run. rewrite foldl_app. cbn [foldl].
    fold (run evs (boot env Started)). set (s := run evs (boot env Started)) in *.
    assert (wf s) as Hwf by apply wf_run, wf_boot.
    assert (exited s = None) as Hex by (subst s; by rewrite exited_run).
    assert (nextRes s = attaches evs) as Hnext.
    { subst s. rewrite nextRes_run; [|apply wf_boot|done].
      by rewrite nextRes_boot. }
    destruct (wf_serving s Hwf Hex) as [Hlisten _].
    rewrite sseClients_handle, Hex.
    assert ((∃ pre post, evs ++ [ev] = pre ++ GetEvents :: post ∧
               attaches pre = c ∧ ¬ closes c post) ↔
            (ev = GetEvents ∧ attaches evs = c) ∨
            (c ∈ sseClients s ∧ ev ≠ ReqClose c)) as ->.
    { rewrite IH. split.
      - intros (pre & post & Heq & Hpre & Hno). symmetry in Heq.
        apply snoc_split in Heq as [(-> & -> & ->) | (post' & -> & ->)].
        + by left.
        + right. rewrite closes_snoc in Hno. split; [|tauto].
          exists pre, post'. split_and!; [done..|tauto].
      - intros [[-> <-] | [(pre & post & -> & <- & Hno) Hev]].
        + exists evs, []. split_and!; [done..|]. unfold closes. apply not_elem_of_nil.
        + exists pre, (post ++ [ev]). split_and!; [by rewrite <- app_assoc|done|].
          rewrite closes_snoc. tauto. }
    destruct ev; try (split; [intros ?; right; by split | by intros [[? _]|[? _]]]).
    + rewrite Hlisten, elem_of_set_add, Hnext. split.
      * intros [?| ->]; [right; by split | by left].
      * intros [[_ <-] | [? _]]; [by right | by left].
    + rewrite elem_of_set_delete. split.
      * intros [? ?]. right. split; [done | congruence].
      * intros [[? _] | [? Hne]]; [done|]. split; [done | congruence].
Qed.

Lemma attached_iff_opened_and_not_closed_witness :
  creds_missing sample_env = false ∧
  (1 ∈ sseClients (run [GetEvents; ReqClose 1; GetEvents; ReqClose 0]
                       (boot sample_env Started)) ↔
   ∃ pre post,
     [GetEvents; ReqClose 1; GetEvents; ReqClose 0] = pre ++ GetEvents :: post ∧
     attaches pre = 1 ∧ ¬ closes 1 post).
Proof.
  split; [reflexivity|].
  exact (attached_iff_opened_and_not_closed sample_env
           [GetEvents; ReqClose 1; GetEvents; ReqClose 0] 1 eq_refl).
Defined.

(** X10. What startup reads from the environment.  A credential that is set
    but empty counts as missing, like one that is not set.  With a credential
    missing the module prints its error line and exits with code 1 without
    reaching [start]: the line that announces the login is never printed, no
    subscription is created, the server does not listen, and nothing depends
    on what the login would have answered.  The channel name is not checked
    that way: unset it is [Session_Event__e], set but empty it is used as it
    is and the subscription is to [/event/]. *)
Theorem startup_reads_environment (env : Env) (outcome : StartOutcome) :
  (creds_missing env = true ↔
     (SF_USERNAME env = None ∨ SF_USERNAME env = Some EmptyString) ∨
     (SF_PASSWORD env = None ∨ SF_PASSWORD env = Some EmptyString) ∨
     (SF_TOKEN env = None ∨ SF_TOKEN env = Some EmptyString)) ∧
  (creds_missing env = true →
     exited (boot env outcome) = Some 1%Z ∧
     listening (boot env outcome) = false ∧
     upstream (boot env outcome) = None ∧
     boot env outcome = boot env Started ∧
     (Error, [LText "Missing Salesforce creds in .env (SF_USERNAME, SF_PASSWORD, SF_TOKEN)"])
       ∈ console (boot env outcome) ∧
     (∀ lv args,
        (lv, LText "Logging into Salesforce..." :: args) ∉ console (boot env outcome))) ∧
  (creds_missing env = false →
     (SF_PLATFORM_EVENT_API_NAME env = None →
        channel <$> upstream (boot env Started) = Some "/event/Session_Event__e") ∧
     (SF_PLATFORM_EVENT_API_NAME env = Some EmptyString →
        channel <$> upstream (boot env Started) = Some "/event/")).
Proof.
  split_and!.
  - unfold creds_missing, truthy.
    destruct (SF_USERNAME env) as [[|? ?]|], (SF_PASSWORD env) as [[|? ?]|],
      (SF_TOKEN env) as [[|? ?]|]; simpl;
      (split; [intros ?; try done; auto 6 | intros [[?|?]|[[?|?]|[?|?]]]; done]).
  - intros Hm. unfold boot. rewrite Hm. split_and!; try done.
    + simpl. by left.
    + intros lv args. simpl. intros Hin%list_elem_of_singleton. discriminate Hin.
  - intros Hm. unfold boot, start. rewrite Hm.
    split; intros ->; reflexivity.
Qed.

Lemma startup_reads_environment_witness :
  exited (boot (mkEnv None (Some "relay@example.com") (Some EmptyString)
                      (Some "token") None None None) (LoginRejected JNull)) = Some 1%Z ∧
  boot (mkEnv None (Some "relay@example.com") (Some EmptyString)
              (Some "token") None None None) (LoginRejected JNull) =
    boot (mkEnv None (Some "relay@example.com") (Some EmptyString)
                (Some "token") None None None) Started.
Proof.
  destruct (proj1 (proj2
    (startup_reads_environment
       (mkEnv None (Some "relay@example.com") (Some EmptyString)
              (Some "token") None None None) (LoginRejected JNull))) eq_refl)
    as (Hexit & _ & _ & Hsame & _).
  exact (conj Hexit Hsame).
Defined.

Section EntryLemmas.
Import Client.
Implicit Types (m : Json) (v : JsVal).

Lemma coalesce_to_null v m : coalesce_to v m = JNull → m = JNull.
Proof. by destruct v as [[]|]. Qed.

Lemma get_coalesce_to (k : string) v :
  get k (Some (coalesce_to v (JObj []))) = get k v.
Proof. by destruct v as [[]|]. Qed.

Lemma get_not_object (k : string) m :
  (∀ kvs, m ≠ JObj kvs) → get k (Some m) = None.
Proof. intros Hm. destruct m; try done. by destruct (Hm kvs). Qed.
End EntryLemmas.

(** X11. The id of an entry is never null and never missing: it is the
    replay id found at [data.event.replayId] when that is there and not
    null, and the generated UUID in every other case (no [data], no
    [event], a null or missing [replayId]). *)
Theorem entry_id_never_null (m : Json) (u : string) (r : Json) :
  Client.id (Client.entry_of m u) ≠ JNull ∧
  (Client.get "replayId" (Client.get "event" (Client.get "data" (Some m))) = Some r →
   r ≠ JNull → Client.id (Client.entry_of m u) = r) ∧
  (Client.get "replayId" (Client.get "event" (Client.get "data" (Some m))) = None ∨
   Client.get "replayId" (Client.get "event" (Client.get "data" (Some m))) = Some JNull →
   Client.id (Client.entry_of m u) = JStr u).
Proof.
  unfold Client.entry_of. cbn [Client.id]. rewrite get_coalesce_to.
  destruct (Client.get "replayId"
              (Client.get "event" (Client.get "data" (Some m)))) as [x|] eqn:Hx.
  - split_and!.
    + by destruct x.
    + intros [= ->] Hr. by destruct r.
    + intros [?|[= ->]]; done.
  - split_and!; [done | done | by intros _].
Qed.

Lemma entry_id_never_null_witness :
  Client.id (Client.entry_of (cometd_message 12) "1a2b") = JNum 12.
Proof.
  refine (proj1 (proj2 (entry_id_never_null (cometd_message 12) "1a2b" (JNum 12))) _ _).
  - reflexivity.
  - discriminate.
Defined.

(** X12. The payload of an entry is never undefined.  It is [data.payload]
    when that is there and not null; else the top-level [payload] when that
    is there and not null; else, in every remaining case, the message
    itself.  So it is null only when the whole message is null, and a
    message that is not an object (a string, a number, an array, null) is
    shown as its own payload.  [raw] is always the whole message. *)
Theorem entry_payload_falls_back (m : Json) (u : string) (p : Json) :
  (Client.get "payload" (Client.get "data" (Some m)) = Some p → p ≠ JNull →
   Client.payload (Client.entry_of m u) = p) ∧
  (Client.get "payload" (Client.get "data" (Some m)) = None ∨
   Client.get "payload" (Client.get "data" (Some m)) = Some JNull →
   Client.get "payload" (Some m) = Some p → p ≠ JNull →
   Client.payload (Client.entry_of m u) = p) ∧
  (Client.get "payload" (Client.get "data" (Some m)) = None ∨
   Client.get "payload" (Client.get "data" (Some m)) = Some JNull →
   Client.get "payload" (Some m) = None ∨
   Client.get "payload" (Some m) = Some JNull →
   Client.payload (Client.entry_of m u) = m) ∧
  (Client.payload (Client.entry_of m u) = JNull → m = JNull) ∧
  ((∀ kvs, m ≠ JObj kvs) → Client.payload (Client.entry_of m u) = m) ∧
  Client.raw (Client.entry_of m u) = m.
Proof.
  unfold Client.entry_of. cbn [Client.payload Client.raw]. split_and!.
  - intros -> Hp. by destruct p.
  - intros [-> | ->] -> Hp; by destruct p.
  - by intros [-> | ->] [-> | ->].
  - apply coalesce_to_null.
  - intros Hm. rewrite (get_not_object "payload" m Hm).
    assert (Client.get "data" (Some m) = None) as -> by by apply get_not_object.
    done.
  - done.
Qed.

Lemma entry_payload_falls_back_witness :
  Client.payload (Client.entry_of (JObj [("a", JNum 1)]) "1a2b") =
    JObj [("a", JNum 1)].
Proof.
  refine (proj1 (proj2 (proj2
    (entry_payload_falls_back (JObj [("a", JNum 1)]) "1a2b" JNull))) _ _).
  - by left.
  - by left.
Defined.

(** X13. What a full list drops is its oldest entry: a well-formed frame
    goes to the head; while fewer than 200 entries are held nothing is
    dropped, and when 200 are held the last one, the oldest, goes and all
    others stay in place. *)
Theorem full_list_drops_oldest
    (JSON_parse : string → option Json) (d u : string) (a : Client.App) (m : Json) :
  JSON_parse d = Some m →
  (length (Client.events a) < 200 →
   Client.events (Client.onPlatformEvent JSON_parse d u a) =
     Client.entry_of m u :: Client.events a) ∧
  (length (Client.events a) = 200 →
   Client.events (Client.onPlatformEvent JSON_parse d u a) =
     Client.entry_of m u :: removelast (Client.events a)).
Proof.
  intros Hd. unfold Client.onPlatformEvent. rewrite Hd. cbn [Client.events].
  change (take Client.KEEP (Client.entry_of m u :: Client.events a))
    with (Client.entry_of m u :: take 199 (Client.events a)).
  split; intros Hlen; f_equal.
  - apply take_ge. lia.
  - rewrite removelast_firstn_len, Hlen. done.
Qed.

Lemma full_list_drops_oldest_witness :
  JsonText.parse good_data = Some (order_event 1) ∧
  Client.events (Client.onPlatformEvent JsonText.parse good_data "1a2b" Client.init) =
    Client.entry_of (order_event 1) "1a2b" :: Client.events Client.init.
Proof.
  split; [vm_compute; reflexivity|].
  refine (proj1 (full_list_drops_oldest JsonText.parse good_data "1a2b"
                   Client.init (order_event 1) _) _).
  - vm_compute. reflexivity.
  - simpl. lia.
Defined.

(** X14. The Clear button forgets everything before it: what the client
    shows after a run depends only on what happened after the last click on
    Clear. *)
Theorem clear_forgets
    (JSON_parse : string → option Json) (before after : list Client.Action) :
  Client.events
    (Client.play JSON_parse (before ++ Client.ClearClick :: after) Client.init) =
    Client.events (Client.play JSON_parse after Client.init).
Proof.
  rewrite !(play_history JSON_parse _ Client.init []) by done.
  by rewrite foldl_app.
Qed.

Section PipelineLemmas.
Variable JSON_parse : string → option Json.


End PipelineLemmas.

Section PageLemmas.
Variable JSON_parse : string → option Json.
Variable toLowerCase : string → string.



End PageLemmas.



Example relay_reaches_client_sample :
  Page.browse JsonText.parse View.ascii_lower
    (Client.Open ::
     zip_with Client.PlatformEvent
       (EventSource.heard "platformEvent"
          (EventSource.read
             (written_of
                (run [TopicData (cometd_message 1); GetEvents; PingFire 0;
                      TopicData (cometd_message 2); TopicData (cometd_message 3);
                      ReqClose 0; TopicData (cometd_message 4)]
                     serving) 0)))
       ["u1"; "u2"; "u3"]) =
    Page.Mounted
      (Client.mkApp true
         [Client.entry_of (cometd_message 3) "u2";
          Client.entry_of (cometd_message 2) "u1"]
         EmptyString []).
Proof. vm_compute. reflexivity. Qed.

(** A message whose schema is a number, or whose channel is an object,
    blanks the page, and nothing that follows brings the component back. *)
Example bad_schema_blanks_page :
  Page.browse JsonText.parse View.ascii_lower
    [Client.Open;
     Client.PlatformEvent
       (JSON_stringify (JObj [("data", JObj [("schema", JNum 7)])])) "u1";
     Client.PlatformEvent good_data "u2"] = Page.Blank ∧
  Page.browse JsonText.parse View.ascii_lower
    [Client.PlatformEvent
       (JSON_stringify (JObj [("channel", JObj [("name", JStr "x")])])) "u1"] =
    Page.Blank.
Proof. by vm_compute. Qed.

(** X16. An attach always succeeds and is fresh: on a running server the
    [/events] handler puts a response that was never attached before at the
    end of [sseClients], with an empty body, the headers set and a live
    interval of 25000 ms, and leaves the body of every response as it was. *)
Theorem attach_appends_fresh (s : Server) (c : ResId) :
  reachable s → exited s = None →
  (nextRes s ∉ sseClients s) ∧
  sseClients (handle GetEvents s) = sseClients s ++ [nextRes s] ∧
  responses (handle GetEvents s) !! nextRes s =
    Some (mkResponse sse_headers true [] 0) ∧
  intervals (handle GetEvents s) !! nextRes s = Some 25000%Z ∧
  written_of (handle GetEvents s) c = written_of s c.
Proof.
  intros Hr Hex. pose proof (reachable_wf s Hr) as Hwf.
  destruct (wf_serving s Hwf Hex) as [Hlisten _].
  pose proof (fresh_not_client s Hwf) as Hfresh.
  unfold handle. rewrite Hex, Hlisten. split_and!.
  - done.
  - unfold get_events, set_add; simpl. by rewrite decide_False by done.
  - unfold get_events; simpl. by rewrite lookup_insert_eq.
  - unfold get_events; simpl. by rewrite lookup_insert_eq.
  - by apply written_get_events.
Qed.

Lemma attach_appends_fresh_witness :
  sseClients (handle GetEvents (run [GetEvents; GetEvents; ReqClose 0] serving)) =
    sseClients (run [GetEvents; GetEvents; ReqClose 0] serving) ++
    [nextRes (run [GetEvents; GetEvents; ReqClose 0] serving)].
Proof.
  refine (proj1 (proj2 (attach_appends_fresh
    (run [GetEvents; GetEvents; ReqClose 0] serving) 0 _ _))).
  - exists sample_env, Started, [GetEvents; GetEvents; ReqClose 0]. reflexivity.
  - reflexivity.
Defined.

(** X17. A close that races with a broadcast matters to the closing response
    only: whether the close of [c] is handled just before or just after an
    upstream message, [sseClients] ends the same and every other response
    has the same body; the closing response gets the frame only if the
    message came first. *)
Theorem close_races_broadcast (s : Server) (d : Json) (c c' : ResId) :
  reachable s → exited s = None → c ∈ sseClients s → c' ≠ c →
  sseClients (handle (ReqClose c) (handle (TopicData d) s)) =
    sseClients (handle (TopicData d) (handle (ReqClose c) s)) ∧
  written_of (handle (ReqClose c) (handle (TopicData d) s)) c' =
    written_of (handle (TopicData d) (handle (ReqClose c) s)) c' ∧
  written_of (handle (ReqClose c) (handle (TopicData d) s)) c =
    written_of s c ++ frame (JSON_stringify d) ∧
  written_of (handle (TopicData d) (handle (ReqClose c) s)) c = written_of s c.
Proof.
  intros Hr Hex Hc Hne. pose proof (reachable_wf s Hr) as Hwf.
  destruct (wf_serving s Hwf Hex) as [_ [u Hu]].
  assert (∀ s', wf s' → exited s' = None → is_Some (upstream s') → ∀ x,
            written_of (handle (TopicData d) s') x =
              written_of s' x ++
              (if decide (x ∈ sseClients s') then frame (JSON_stringify d) else []))
    as Hdata.
  { intros s' Hwf' Hex' [u' Hu'] x. unfold handle. rewrite Hex', Hu'.
    unfold on_data. by rewrite written_broadcastEvent by by apply wf_log. }
  assert (∀ s' x, written_of (handle (ReqClose c) s') x = written_of s' x)
    as Hclose.
  { intros s' x. unfold handle. by destruct (exited s'). }
  assert (wf (handle (ReqClose c) s)) as Hwf1 by by apply wf_handle.
  assert (exited (handle (ReqClose c) s) = None) as Hex1
    by by rewrite exited_handle.
  assert (is_Some (upstream (handle (ReqClose c) s))) as Hu1
    by (rewrite upstream_handle, Hu; by eexists).
  assert (sseClients (handle (ReqClose c) s) = set_delete c (sseClients s)) as Hreg
    by (by rewrite sseClients_handle, Hex).
  split_and!.
  - assert (∀ s', sseClients (handle (TopicData d) s') = sseClients s') as Hdreg
      by (intros s'; rewrite sseClients_handle; by destruct (exited s')).
    rewrite Hdreg, Hreg. rewrite sseClients_handle, exited_handle, Hex.
    by rewrite Hdreg.
  - rewrite Hclose, !Hdata, Hclose, Hreg by (done || by eexists). f_equal.
    destruct (decide (c' ∈ sseClients s)) as [Hin|Hout].
    + by rewrite decide_True by by apply elem_of_set_delete.
    + rewrite decide_False; [done|]. rewrite elem_of_set_delete. tauto.
  - rewrite Hclose, Hdata by (done || by eexists). by rewrite decide_True by done.
  - rewrite Hdata, Hclose, Hreg by done.
    rewrite decide_False; [by rewrite app_nil_r|].
    rewrite elem_of_set_delete. tauto.
Qed.

Lemma close_races_broadcast_witness :
  written_of (handle (ReqClose 0)
                (handle (TopicData (JNum 5)) (run [GetEvents; GetEvents] serving))) 1 =
    written_of (handle (TopicData (JNum 5))
                  (handle (ReqClose 0) (run [GetEvents; GetEvents] serving))) 1.
Proof.
  refine (proj1 (proj2 (close_races_broadcast
    (run [GetEvents; GetEvents] serving) (JNum 5) 0 1 _ _ _ _))).
  - exists sample_env, Started, [GetEvents; GetEvents]. reflexivity.
  - reflexivity.
  - vm_compute. left.
  - lia.
Defined.
